(** * Edge-tts: the streaming synthesis client and its retry orchestration

    A shallow embedding of [src/app/ssml_client.py] (frame codec and
    streaming session) and of [src/app/tts_worker.py] (chunker, fallback
    cascade, retries, single-file generation), with the properties the
    specification states about them.

    Conventions.
    - A Python [bytes] object is a [list ascii].  A Python [str] that only
      travels over the wire (SSML body, time stamp, request id) is
      represented by its UTF-8 encoding, so [.encode("utf-8")] is the
      identity and f-string concatenation is [++].
    - A Python [str] whose length is counted in characters (the chunker)
      is a list of code points, [list N].
    - Python integers are [Z]; slices follow the Python rules for negative
      and out-of-range bounds.
    - Exceptions are values of [exn]; a computation that may raise returns
      a sum [exn + A]. *)

From Stdlib Require Import ZArith Lia Ascii String DecimalString.
From stdpp Require Import base gmap strings list.

Local Open Scope Z_scope.

(* ===================================================================== *)
(** * Python builtins used by the sources                                 *)
(* ===================================================================== *)

Module Py.

Section Sequences.
Context {A : Type} `{EqDecision A}.

(** [len(s)] *)
Definition len (s : list A) : Z := Z.of_nat (length s).

(** [s[:i]] *)
Definition slice_to (s : list A) (i : Z) : list A :=
  if i <? 0 then take (Z.to_nat (len s + i)) s else take (Z.to_nat i) s.

(** [s[i:]] *)
Definition slice_from (s : list A) (i : Z) : list A :=
  if i <? 0 then drop (Z.to_nat (len s + i)) s else drop (Z.to_nat i) s.

(** [s.startswith(pat)] *)
Fixpoint startswith (pat s : list A) : bool :=
  match pat, s with
  | [], _ => true
  | p :: pat', c :: s' => bool_decide (p = c) && startswith pat' s'
  | _ :: _, [] => false
  end.

(** [s.find(pat)] scans from the left; [i] is the index of the head of [s]. *)
Fixpoint find_from (pat s : list A) (i : Z) : Z :=
  if startswith pat s then i
  else match s with
       | [] => -1
       | _ :: s' => find_from pat s' (i + 1)
       end.

Definition find (s pat : list A) : Z := find_from pat s 0.

(** [s.rfind(pat)]: the highest index at which [pat] occurs, or [-1]. *)
Fixpoint rfind_from (pat s : list A) (i : Z) : Z :=
  match s with
  | [] => if startswith pat [] then i else -1
  | _ :: s' =>
      let r := rfind_from pat s' (i + 1) in
      if r =? -1 then (if startswith pat s then i else -1) else r
  end.

Definition rfind (s pat : list A) : Z := rfind_from pat s 0.

Definition cons_head (c : A) (ls : list (list A)) : list (list A) :=
  match ls with
  | l :: ls' => (c :: l) :: ls'
  | [] => [[c]]
  end.

(** [s.split(sep, maxsplit)] for a non-empty separator: non-overlapping
    occurrences, left to right; a negative [maxsplit] means no limit.
    [skip] counts the elements of an already matched separator that are
    still in front of [s]. *)
Fixpoint split_go (sep : list A) (maxsplit : Z) (skip : nat) (s : list A)
  : list (list A) :=
  match s with
  | [] => [[]]
  | c :: s' =>
      match skip with
      | S k => split_go sep maxsplit k s'
      | O =>
          if maxsplit =? 0 then [s]
          else if startswith sep s
               then [] :: split_go sep (maxsplit - 1) (length sep - 1) s'
               else cons_head c (split_go sep maxsplit 0 s')
      end
  end.

Definition split_n (s sep : list A) (maxsplit : Z) : list (list A) :=
  split_go sep maxsplit 0 s.

Definition split (s sep : list A) : list (list A) := split_n s sep (-1).

(** [sep.join(pieces)] *)
Fixpoint join (sep : list A) (pieces : list (list A)) : list A :=
  match pieces with
  | [] => []
  | [l] => l
  | l :: ls => l ++ sep ++ join sep ls
  end.

End Sequences.

(** ** [bytes] *)

Abbreviation bytes := (list ascii).

Definition B (s : string) : bytes := list_ascii_of_string s.

Definition CR : ascii := "013"%char.
Definition LF : ascii := "010"%char.
Definition DQ : ascii := "034"%char.
Definition CRLF : bytes := [CR; LF].

(** [int.from_bytes(b, "big")] *)
Definition int_from_bytes_big (b : bytes) : Z :=
  fold_left (fun acc c => acc * 256 + Z.of_N (N_of_ascii c)) b 0.

(** ** [str] as a sequence of code points *)

Abbreviation str := (list N).

Definition S_ (s : string) : str := map N_of_ascii (list_ascii_of_string s).

(** [ch.isspace()]: the characters [str.strip()] removes. *)
Definition isspace (c : N) : bool :=
  ((9 <=? c) && (c <=? 13) || (28 <=? c) && (c <=? 32)
   || (c =? 133) || (c =? 160) || (c =? 5760)
   || (8192 <=? c) && (c <=? 8202)
   || (c =? 8232) || (c =? 8233) || (c =? 8239) || (c =? 8287)
   || (c =? 12288))%N.

Definition nonspace (c : N) : Prop := isspace c = false.

#[global] Instance nonspace_dec c : Decision (nonspace c).
Proof. unfold nonspace. apply _. Defined.

Fixpoint lstrip (s : str) : str :=
  match s with
  | c :: s' => if isspace c then lstrip s' else s
  | [] => []
  end.

Definition rstrip (s : str) : str := rev (lstrip (rev s)).

(** [s.strip()] *)
Definition strip (s : str) : str := rstrip (lstrip s).

End Py.

(* ===================================================================== *)
(** * Exceptions                                                          *)
(* ===================================================================== *)

(** The exception classes the two modules raise or let through.
    [RuntimeError] carries the [__cause__] set by [raise ... from ...].
    [CancelledError] is [asyncio.CancelledError], raised inside a task
    that is cancelled while it waits (the worker cancels its tasks when
    its loop is stopped); it derives from [BaseException] only. *)
#[warnings="-register-all"]
Inductive exn : Type :=
| TypeError (msg : string)
| ValueError (msg : string)
| ClientResponseError (status : Z)
| NoAudioReceived (msg : string)
| WebSocketError (data : Py.bytes)
| RuntimeError (msg : string) (cause : option exn)
| TimeoutError
| FileNotFoundError
| CalledProcessError (stderr : string)
| CancelledError
| OtherError (name : string).

(** [isinstance(e, Exception)]: what an [except Exception] clause catches.
    [OtherError] stands for classes that derive from [Exception]. *)
Definition is_exception (e : exn) : bool :=
  match e with
  | CancelledError => false
  | _ => true
  end.

Abbreviation result A := (exn + A)%type.

(* ===================================================================== *)
(** * [src/app/ssml_client.py]: the frame codec                           *)
(* ===================================================================== *)

Module SsmlClient.
Import Py.

(** The loop body of [get_headers_and_data]:
    [key, value = line.split(b":", 1); headers[key] = value].
    [split] with [maxsplit = 1] gives one or two pieces; unpacking one
    piece into two names raises [ValueError]. *)
Definition unpack_message : string :=
  "not enough values to unpack (expected 2, got 1)".

Fixpoint header_loop (lines : list bytes) (headers : gmap bytes bytes)
  : result (gmap bytes bytes) :=
  match lines with
  | [] => inr headers
  | line :: rest =>
      match split_n line (B ":") 1 with
      | [key; value] => header_loop rest (<[key := value]> headers)
      | _ => inl (ValueError unpack_message)
      end
  end.

Definition get_headers_and_data (data : bytes) (header_length : Z)
  : result (gmap bytes bytes * bytes) :=
  match header_loop (split (slice_to data header_length) CRLF) ∅ with
  | inl e => inl e
  | inr headers => inr (headers, slice_from data (header_length + 2))
  end.

Definition ssml_headers_plus_data (request_id timestamp ssml : bytes) : bytes :=
  B "X-RequestId:" ++ request_id ++ CRLF
  ++ B "Content-Type:application/ssml+xml" ++ CRLF
  ++ B "X-Timestamp:" ++ timestamp ++ B "Z" ++ CRLF
  ++ B "Path:ssml" ++ CRLF ++ CRLF
  ++ ssml.

(** The JSON literals of [send_command_request], written with ['] for the
    double quote. *)
Definition dq (s : bytes) : bytes :=
  map (fun c => if decide (c = "'"%char) then DQ else c) s.

Definition speech_config_body (output_format : bytes) : bytes :=
  dq (B "{'context':{'synthesis':{'audio':{'metadataoptions':{")
  ++ dq (B "'sentenceBoundaryEnabled':'false','wordBoundaryEnabled':'false'")
  ++ dq (B "},'outputFormat':'") ++ output_format ++ dq (B "'}}}}") ++ CRLF.

(** The message [send_command_request] sends; [date] is [date_to_string()]. *)
Definition speech_config_message (date output_format : bytes) : bytes :=
  B "X-Timestamp:" ++ date ++ CRLF
  ++ B "Content-Type:application/json; charset=utf-8" ++ CRLF
  ++ B "Path:speech.config" ++ CRLF ++ CRLF
  ++ speech_config_body output_format.

(** What the session does with a text frame before looking at [Path]:
    [get_headers_and_data(encoded_data, encoded_data.find(b"\r\n\r\n"))]. *)
Definition decode_text_frame (encoded_data : bytes)
  : result (gmap bytes bytes * bytes) :=
  get_headers_and_data encoded_data (find encoded_data (CRLF ++ CRLF)).

(** ** The streaming session *)

(** One message handed out by [async for received in websocket].  The text
    of a [TEXT] message is given by its UTF-8 encoding. *)
Inductive ws_msg : Type :=
| WsText (data : bytes)
| WsBinary (data : bytes)
| WsError (data : bytes)
| WsOther.

(** The iterator either delivers a message or raises. *)
Inductive ws_event : Type :=
| Recv (received : ws_msg)
| RecvRaises (e : exn).

(** What one pass through the [async with ... ws_connect(...)] block meets:
    the handshake raises, one of the two [send_str] calls raises, or the
    peer delivers [incoming] and then closes. *)
Inductive connection : Type :=
| ConnectFails (e : exn)
| SendFails (e : exn)
| Established (incoming : list ws_event).

(** The network and the token service as the client sees them:
    [connection_at k] is what the [k]-th [ws_connect] meets,
    [refresh_at k] what the [k]-th [DRM.handle_client_response_error]
    does ([None]: it returns; [Some e]: it raises [e]); the two counters
    record how many of each have happened. *)
Record Net : Type := mkNet {
  connection_at : nat -> connection;
  refresh_at : nat -> option exn;
  opened : nat;
  refreshed : nat
}.

(** [{"type": ..., "data": ...}] *)
Record TTSChunk : Type := mkChunk {
  chunk_type : bytes;
  chunk_data : bytes
}.

(** How the [async for] loop of [__stream] is left. *)
Inductive loop_exit : Type :=
| TurnEnd
| Closed
| LoopRaised (e : exn).

Definition yield_ (c : TTSChunk) (k : list TTSChunk * bool * loop_exit)
  : list TTSChunk * bool * loop_exit :=
  let '(ys, flag, ex) := k in (c :: ys, flag, ex).

(** The [async for received in websocket] loop: the chunks yielded, the
    final value of [audio_was_received], and how the loop ended. *)
Fixpoint frame_loop (incoming : list ws_event) (audio_was_received : bool)
  : list TTSChunk * bool * loop_exit :=
  match incoming with
  | [] => ([], audio_was_received, Closed)
  | RecvRaises e :: _ => ([], audio_was_received, LoopRaised e)
  | Recv (WsText encoded_data) :: rest =>
      match decode_text_frame encoded_data with
      | inl e => ([], audio_was_received, LoopRaised e)
      | inr (parameters, _) =>
          if decide (parameters !! B "Path" = Some (B "turn.end"))
          then ([], audio_was_received, TurnEnd)
          else frame_loop rest audio_was_received
      end
  | Recv (WsBinary received_data) :: rest =>
      if len received_data <? 2 then frame_loop rest audio_was_received
      else
        let header_length := int_from_bytes_big (slice_to received_data 2) in
        if header_length >? len received_data
        then frame_loop rest audio_was_received
        else
          match get_headers_and_data received_data header_length with
          | inl e => ([], audio_was_received, LoopRaised e)
          | inr (parameters, data) =>
              if decide (parameters !! B "Path" <> Some (B "audio"))
              then frame_loop rest audio_was_received
              else if decide (parameters !! B "Content-Type" = None
                              /\ len data = 0)
              then frame_loop rest audio_was_received
              else if len data >? 0
              then yield_ (mkChunk (B "audio") data) (frame_loop rest true)
              else frame_loop rest audio_was_received
          end
  | Recv (WsError received_data) :: _ =>
      ([], audio_was_received,
       LoopRaised (WebSocketError
                     (match received_data with
                      | [] => B "Unknown error"
                      | _ => received_data
                      end)))
  | Recv WsOther :: rest => frame_loop rest audio_was_received
  end.

Definition no_audio_message : string :=
  "No audio was received. Please verify that your parameters are correct.".

(** [__stream] against one connection: the chunks it yields and how the
    generator ends ([None]: it is exhausted; [Some e]: it raises [e]). *)
Definition stream_on (c : connection) : list TTSChunk * option exn :=
  match c with
  | ConnectFails e => ([], Some e)
  | SendFails e => ([], Some e)
  | Established incoming =>
      let '(ys, audio_was_received, ex) := frame_loop incoming false in
      match ex with
      | LoopRaised e => (ys, Some e)
      | TurnEnd | Closed =>
          if negb audio_was_received
          then (ys, Some (NoAudioReceived no_audio_message))
          else (ys, None)
      end
  end.

(** [__stream]: opens the next connection. *)
Definition __stream (n : Net) : Net * (list TTSChunk * option exn) :=
  (mkNet (connection_at n) (refresh_at n) (S (opened n)) (refreshed n),
   stream_on (connection_at n (opened n))).

(** [DRM.handle_client_response_error(e)] *)
Definition handle_client_response_error (n : Net) : Net * option exn :=
  (mkNet (connection_at n) (refresh_at n) (opened n) (S (refreshed n)),
   refresh_at n (refreshed n)).

Record SSMLCommunicate : Type := mkSSMLCommunicate {
  ssml : bytes;
  output_format : bytes;
  stream_was_called : bool
}.

Definition set_stream_was_called (self : SSMLCommunicate) : SSMLCommunicate :=
  mkSSMLCommunicate (ssml self) (output_format self) true.

(** The body of [stream], run by a consumer that iterates the generator
    to its end, as [async for] in [save] does.  [stream] is an async
    generator function: the call [self.stream()] runs none of this body;
    the test and the setting of [stream_was_called] happen when the
    iteration starts. *)
Definition stream (self : SSMLCommunicate) (n : Net)
  : SSMLCommunicate * Net * list TTSChunk * option exn :=
  if stream_was_called self
  then (self, n, [], Some (RuntimeError "stream can only be called once." None))
  else
    let self := set_stream_was_called self in
    let '(n1, (ys1, r1)) := __stream n in
    match r1 with
    | Some (ClientResponseError status) =>
        if decide (status <> 403)
        then (self, n1, ys1, r1)
        else
          match handle_client_response_error n1 with
          | (n2, Some e) => (self, n2, ys1, Some e)
          | (n2, None) =>
              let '(n3, (ys2, r2)) := __stream n2 in
              (self, n3, ys1 ++ ys2, r2)
          end
    | _ => (self, n1, ys1, r1)
    end.




(** The files and the network. *)
Record World : Type := mkWorld {
  files : gmap bytes bytes;
  net : Net
}.

(** What [audio.write] has put into the file when [save] is left. *)
Definition written (ys : list TTSChunk) : bytes :=
  concat (map chunk_data
            (filter (fun m => chunk_type m = B "audio") ys)).

(** [save]: [open(audio_fname, "wb")] creates or truncates the file, every
    audio message is appended, and the file is closed on the way out,
    also when [stream] raises. *)
Definition save (self : SSMLCommunicate) (audio_fname : bytes) (w : World)
  : SSMLCommunicate * World * option exn :=
  let '(self', n', ys, r) := stream self (net w) in
  (self', mkWorld (<[audio_fname := written ys]> (files w)) n', r).

(** ** The shape of an outbound message *)

(** [b"\r\n".join(lines)] *)
Fixpoint join_crlf (lines : list bytes) : bytes :=
  match lines with
  | [] => []
  | [l] => l
  | l :: ls => l ++ CRLF ++ join_crlf ls
  end.

(** [b"\r\n" not in l] *)
Definition nocrlf (l : bytes) : Prop := find l CRLF = -1.

(** The headers the two outbound messages are written with. *)
Definition payload_headers (request_id timestamp : bytes) : gmap bytes bytes :=
  <[B "Path" := B "ssml"]>
    (<[B "X-Timestamp" := timestamp ++ B "Z"]>
      (<[B "Content-Type" := B "application/ssml+xml"]>
        (<[B "X-RequestId" := request_id]> ∅))).

Definition config_headers (date : bytes) : gmap bytes bytes :=
  <[B "Path" := B "speech.config"]>
    (<[B "Content-Type" := B "application/json; charset=utf-8"]>
      (<[B "X-Timestamp" := date]> ∅)).

(** ** Sample traffic *)

(** A well-formed binary audio message: the two length bytes, a header
    block of 27 bytes ending in [Path:audio] and a blank line, then the
    payload. *)
Definition audio_frame (payload : bytes) : bytes :=
  [zero; ascii_of_nat 27] ++ B "X-RequestId:1" ++ CRLF
  ++ B "Path:audio" ++ CRLF ++ payload.

Definition turn_end_frame : bytes := B "Path:turn.end" ++ CRLF ++ CRLF.

(** A network on which every handshake is rejected with status [status]. *)
Definition net_rejecting (status : Z) : Net :=
  mkNet (fun _ => ConnectFails (ClientResponseError status))
        (fun _ => None) 0 0.

(** A network whose first connection fails with [first] and whose later
    connections deliver [payload] in one audio message. *)
Definition net_then_audio (first : connection) (payload : bytes) : Net :=
  mkNet (fun k => match k with
                  | O => first
                  | _ => Established [Recv (WsBinary (audio_frame payload));
                                      Recv (WsText turn_end_frame)]
                  end)
        (fun _ => None) 0 0.

Definition fresh_session : SSMLCommunicate :=
  mkSSMLCommunicate (B "<speak/>") (B "audio-24khz-48kbitrate-mono-mp3") false.

(** The network of [net_then_audio] with a token service call that raises
    [e] (as [DRM.handle_client_response_error] does when the response
    carries no usable server date). *)
Definition net_refresh_raises (first : connection) (payload : bytes) (e : exn)
  : Net :=
  mkNet (connection_at (net_then_audio first payload)) (fun _ => Some e) 0 0.

End SsmlClient.

(* ===================================================================== *)
(** * [src/app/tts_worker.py]                                             *)
(* ===================================================================== *)

Module TtsWorker.
Import Py.
Import SsmlClient.

(** ** The chunker *)

Definition DOT : N := 46%N.
Definition BANG : N := 33%N.
Definition QUEST : N := 63%N.
Definition SP : N := 32%N.
Definition NL : N := 10%N.

(** [['. ', '! ', '? ', '.\n', '!\n', '?\n']] *)
Definition terminators : list str :=
  [[DOT; SP]; [BANG; SP]; [QUEST; SP]; [DOT; NL]; [BANG; NL]; [QUEST; NL]].

(** The body of the [for char in [...]] loop over the sentence
    terminators, and the loop. *)
Definition pick_terminator (limit_text : str) (split_idx : Z) (char : str) : Z :=
  let idx := rfind limit_text char in
  if idx =? -1 then split_idx else Z.max split_idx (idx + 1).

Definition sentence_split (limit_text : str) : Z :=
  fold_left (pick_terminator limit_text) terminators (-1).

(** The value of [split_idx] when the chunk is cut. *)
Definition split_index (text : str) (max_chars : Z) : Z :=
  let limit_text := slice_to text max_chars in
  let split_idx := sentence_split limit_text in
  let split_idx := if split_idx =? -1 then rfind limit_text [NL] else split_idx in
  let split_idx := if split_idx =? -1 then rfind limit_text [SP] else split_idx in
  if split_idx =? -1 then max_chars else split_idx.

(** The [while len(text) > max_chars] loop and the lines after it.  [None]
    means that [fuel] iterations did not end the loop. *)
Fixpoint chunk_loop (fuel : nat) (text : str) (max_chars : Z) (chunks : list str)
  : option (list str) :=
  if len text >? max_chars then
    match fuel with
    | O => None
    | S fuel' =>
        let split_idx := split_index text max_chars in
        chunk_loop fuel' (strip (slice_from text split_idx)) max_chars
          (chunks ++ [strip (slice_to text split_idx)])
    end
  else Some (if decide (text <> []) then chunks ++ [text] else chunks).

(** [_chunk_text]; the loop gets one unit of fuel per character. *)
Definition _chunk_text (text : str) (max_chars : Z) : option (list str) :=
  if len text <=? max_chars then Some [text]
  else chunk_loop (length text) text max_chars [].

(** The preference order of the specification, said of a window (the
    first [max_chars] characters of the text) and a cut position [k]:
    right after the last sentence terminator mark if a terminator occurs
    in the window; else at the last newline; else at the last space; else
    at [max_chars]. *)
Definition occurs_at (pat window : str) (j : Z) : Prop :=
  0 <= j <= len window /\ startswith pat (drop (Z.to_nat j) window) = true.

Definition spec_preferred_cut (window : str) (max_chars k : Z) : Prop :=
  ((exists t, t ∈ terminators /\ occurs_at t window (k - 1))
   /\ forall t j, t ∈ terminators -> occurs_at t window j -> j + 1 <= k)
  \/ ((forall t j, t ∈ terminators -> ~ occurs_at t window j)
      /\ occurs_at [NL] window k
      /\ forall j, occurs_at [NL] window j -> j <= k)
  \/ ((forall t j, t ∈ terminators -> ~ occurs_at t window j)
      /\ (forall j, ~ occurs_at [NL] window j)
      /\ occurs_at [SP] window k
      /\ forall j, occurs_at [SP] window j -> j <= k)
  \/ ((forall t j, t ∈ terminators -> ~ occurs_at t window j)
      /\ (forall j, ~ occurs_at [NL] window j)
      /\ (forall j, ~ occurs_at [SP] window j)
      /\ k = max_chars).

(** The text the loop goes on with after a cut. *)
Definition rest_after_cut (text : str) (max_chars : Z) : str :=
  strip (slice_from text (split_index text max_chars)).

(** The chunk a cut produces. *)
Definition chunk_before_cut (text : str) (max_chars : Z) : str :=
  strip (slice_to text (split_index text max_chars)).

(** ** The fallback cascade and the retries *)

Inductive Tier : Type := SilenceTagged | BreakTagged | PlainOrRawText.

(** What the orchestrator does to the outside: a synthesis attempt on a
    tier, or [asyncio.sleep(seconds)]. *)
Inductive event : Type :=
| Attempt (tier : Tier)
| Sleep (seconds : Z).

Definition max_retries : Z := 3.

(** The message of the [RuntimeError] raised after the last retry. *)
Definition exhausted_message : string :=
  String.append "Сервер не вернул данные после 3 попыток."
  (String.append (String LF "Возможные причины:")
  (String.append (String LF "1. Проблемы с интернет-соединением или прокси (VLESS).")
  (String.append (String LF "2. Текст содержит недопустимые символы или слишком длинный.")
  (String.append (String LF "3. Временный сбой сервиса Microsoft.")
  (String LF "Попробуйте изменить голос, отключить/включить прокси или повторить попытку."))))).

Section Orchestrator.

(** The orchestrator over any session layer: [synth tier destination text
    rate_str] is one synthesis attempt on [tier] (build the request, save,
    [stat] the file), [sleep] is [asyncio.sleep], taken to return. *)
Context {W : Type}.
Variable synth : Tier -> bytes -> str -> str -> W -> W * result Z.
Variable sleep : Z -> W -> W.

(** The two [try] blocks end in [except Exception]: an exception of
    another class leaves the function at once. *)
Definition _attempt_generate_audio (destination : bytes) (text rate_str : str)
  (w : W) : W * list event * result Z :=
  match synth SilenceTagged destination text rate_str w with
  | (w1, inr size) => (w1, [Attempt SilenceTagged], inr size)
  | (w1, inl exc) =>
      if negb (is_exception exc) then (w1, [Attempt SilenceTagged], inl exc)
      else
      match synth BreakTagged destination text rate_str w1 with
      | (w2, inr size) =>
          (w2, [Attempt SilenceTagged; Attempt BreakTagged], inr size)
      | (w2, inl exc) =>
          if negb (is_exception exc)
          then (w2, [Attempt SilenceTagged; Attempt BreakTagged], inl exc)
          else
          let '(w3, r) := synth PlainOrRawText destination text rate_str w2 in
          (w3, [Attempt SilenceTagged; Attempt BreakTagged;
                Attempt PlainOrRawText], r)
      end
  end.

(** How the retry loop is left: an attempt returned, an exception that
    [except Exception] does not catch passed through, or the loop ran
    out with [last_error]. *)
Inductive retry_exit : Type :=
| Returned (size : Z)
| Passed (e : exn)
| RanOut (last_error : option exn).

(** The [for attempt in range(1, max_retries + 1)] loop. *)
Fixpoint retry_loop (attempts : list Z) (last_error : option exn)
  (destination : bytes) (text rate_str : str) (w : W)
  : W * list event * retry_exit :=
  match attempts with
  | [] => (w, [], RanOut last_error)
  | attempt :: rest =>
      match _attempt_generate_audio destination text rate_str w with
      | (w1, tr, inr size) => (w1, tr, Returned size)
      | (w1, tr, inl e) =>
          if negb (is_exception e) then (w1, tr, Passed e)
          else
          let '(w2, tr2) :=
            if attempt <? max_retries
            then (sleep (1 * attempt) w1, [Sleep (1 * attempt)])
            else (w1, []) in
          let '(w3, tr3, r) :=
            retry_loop rest (Some e) destination text rate_str w2 in
          (w3, tr ++ tr2 ++ tr3, r)
      end
  end.

(** The lines after the loop: what is raised for [last_error]. *)
Definition final_error (last_error : option exn) : exn :=
  match last_error with
  | Some (NoAudioReceived m) =>
      RuntimeError exhausted_message (Some (NoAudioReceived m))
  | Some e => e
  | None => TypeError "exceptions must derive from BaseException"
  end.

Definition _generate_audio (destination : bytes) (text rate_str : str) (w : W)
  : W * list event * result Z :=
  let '(w', tr, r) :=
    retry_loop (seqZ 1 max_retries) None destination text rate_str w in
  match r with
  | Returned size => (w', tr, inr size)
  | Passed e => (w', tr, inl e)
  | RanOut last_error => (w', tr, inl (final_error last_error))
  end.

End Orchestrator.

(** ** Scripted sessions

    A session layer that keeps the list of the tiers it was asked for and
    answers by tier alone. *)

Definition scripted_synth (answer : Tier -> result Z) (tier : Tier)
  (destination : bytes) (text rate_str : str) (w : list Tier)
  : list Tier * result Z :=
  (w ++ [tier], answer tier).

Definition scripted_sleep (seconds : Z) (w : list Tier) : list Tier := w.

(** Fails on the two SSML tiers, succeeds on the third. *)
Definition third_tier_only (tier : Tier) : result Z :=
  match tier with
  | PlainOrRawText => inr 1024
  | _ => inl (NoAudioReceived no_audio_message)
  end.

(** Times out on every tier. *)
Definition always_timeout (tier : Tier) : result Z := inl TimeoutError.

(** Never gets audio on any tier. *)
Definition never_audio (tier : Tier) : result Z :=
  inl (NoAudioReceived no_audio_message).

Definition is_attempt (ev : event) : bool :=
  match ev with
  | Attempt _ => true
  | Sleep _ => false
  end.

(** ** The worker against the streaming client *)

(** [destination.stat().st_size] *)
Definition stat_size (p : bytes) (w : World) : result Z :=
  match files w !! p with
  | Some content => inr (len content)
  | None => inl FileNotFoundError
  end.

(** [if f.exists(): f.unlink()] *)
Definition unlink_if_exists (p : bytes) (w : World) : World :=
  mkWorld (delete p (files w)) (net w).

Definition write_file (p content : bytes) (w : World) : World :=
  mkWorld (<[p := content]> (files w)) (net w).

(** The file [p] exists and is not empty. *)
Definition holds_audio (p : bytes) (w : World) : Prop :=
  exists content, files w !! p = Some content /\ content <> [].

(** No file other than [p] differs between [w] and [w']. *)
Definition same_elsewhere (p : bytes) (w w' : World) : Prop :=
  forall q, q <> p -> files w' !! q = files w !! q.

Section Worker.

(** The fields of the worker. *)
Variable voice_id : str.
Variable rate_str : str.
Variable use_stress : bool.
Variable gemini_enabled thinking_mode : bool.
Variable session_output_format : bytes.

(** [_build_ssml(text, rate_str, use_silence, raw_content)], UTF-8
    encoded. *)
Variable _build_ssml : str -> str -> bool -> bool -> bytes.

(** Collaborators outside the two modules.
    - [communicate_save input destination]: [asyncio.wait_for(edge_tts
      .Communicate(input, ...).save(destination), timeout)];
    - [prepare_text_for_tts]: the text pipeline;
    - [_temp_file_name]: [tempfile.mkstemp] and [os.close];
    - [with_suffix_txt]: [Path.with_suffix('.txt')];
    - [manifest]: the lines written to the list file;
    - [ffmpeg inputs list_file output]: [subprocess.run] of the concat
      command with [check=True]. *)
Variable communicate_save : str -> bytes -> World -> World * option exn.
Variable prepare_text_for_tts : str -> bool -> bool -> World -> World * result str.
Variable _temp_file_name : World -> World * result bytes.
Variable with_suffix_txt : bytes -> bytes.
Variable manifest : list bytes -> bytes.
Variable ffmpeg : list bytes -> bytes -> bytes -> World -> World * result unit.

(** The first two [try] blocks of [_attempt_generate_audio]. *)
Definition ssml_attempt (use_silence : bool) (destination : bytes)
  (text rate_str' : str) (w : World) : World * result Z :=
  let ssml := _build_ssml text rate_str' use_silence use_stress in
  let communicator := mkSSMLCommunicate ssml session_output_format false in
  match save communicator destination w with
  | (_, w1, Some e) => (w1, inl e)
  | (_, w1, None) => (w1, stat_size destination w1)
  end.

(** The hand-built [<speak>] wrapper of the third tier. *)
Definition raw_ssml (text rate_str' : str) : str :=
  S_ "<speak version='1.0' xmlns='http://www.w3.org/2001/10/synthesis' xml:lang='ru-RU'>"
  ++ S_ "<voice name='" ++ voice_id ++ S_ "'>"
  ++ S_ "<prosody rate='" ++ rate_str' ++ S_ "' pitch='+0Hz'>"
  ++ text
  ++ S_ "</prosody>"
  ++ S_ "</voice>"
  ++ S_ "</speak>".

(** The third tier, outside any [try]. *)
Definition plain_attempt (destination : bytes) (text rate_str' : str)
  (w : World) : World * result Z :=
  let input := if use_stress then raw_ssml text rate_str' else strip text in
  match communicate_save input destination w with
  | (w1, Some e) => (w1, inl e)
  | (w1, None) => (w1, stat_size destination w1)
  end.

Definition worker_synth (tier : Tier) : bytes -> str -> str -> World -> World * result Z :=
  match tier with
  | SilenceTagged => ssml_attempt true
  | BreakTagged => ssml_attempt false
  | PlainOrRawText => plain_attempt
  end.

(** [asyncio.sleep] changes neither the files nor the network. *)
Definition worker_sleep (seconds : Z) (w : World) : World := w.

Definition worker_generate_audio (destination : bytes) (text : str) (w : World)
  : World * list event * result Z :=
  _generate_audio worker_synth worker_sleep destination text rate_str w.

(** [_merge_audio_files] *)
Definition _merge_audio_files (temp_files : list bytes) (output_path : bytes)
  (w : World) : World * result unit :=
  let list_file := with_suffix_txt output_path in
  let w1 := write_file list_file (manifest temp_files) w in
  let '(w2, r) := ffmpeg temp_files list_file output_path w1 in
  let r' :=
    match r with
    | inl (CalledProcessError stderr) =>
        inl (RuntimeError
               (String.append "Ошибка склейки аудио (ffmpeg): " stderr) None)
    | _ => r
    end in
  (unlink_if_exists list_file w2, r').

(** The [for i, chunk in enumerate(chunks)] loop of step 2: the temporary
    files made so far, and the exception that ended the loop, if any. *)
Fixpoint generate_chunks (chunks : list str) (temp_files : list bytes)
  (w : World) : World * list bytes * option exn :=
  match chunks with
  | [] => (w, temp_files, None)
  | chunk :: rest =>
      match _temp_file_name w with
      | (w1, inl e) => (w1, temp_files, Some e)
      | (w1, inr temp_file) =>
          match worker_generate_audio temp_file chunk w1 with
          | (w2, _, inl e) => (w2, temp_files, Some e)
          | (w2, _, inr _) =>
              generate_chunks rest (temp_files ++ [temp_file]) w2
          end
      end
  end.

(** The [finally] block of step 4. *)
Definition cleanup (temp_files : list bytes) (w : World) : World :=
  fold_left (fun w f => unlink_if_exists f w) temp_files w.

(** [_generate_single_file]; [None] only if the chunker does not return. *)
Definition _generate_single_file (text : str) (final_destination : bytes)
  (w : World) : option (World * result unit) :=
  match prepare_text_for_tts text gemini_enabled thinking_mode w with
  | (w0, inl e) => Some (w0, inl e)
  | (w0, inr text) =>
      if decide (text = [] \/ strip text = []) then Some (w0, inr tt)
      else
        match _chunk_text text 5000 with
        | None => None
        | Some [chunk] =>
            match worker_generate_audio final_destination chunk w0 with
            | (w1, _, inl e) => Some (w1, inl e)
            | (w1, _, inr _) => Some (w1, inr tt)
            end
        | Some chunks =>
            match generate_chunks chunks [] w0 with
            | (w1, temp_files, Some e) => Some (cleanup temp_files w1, inl e)
            | (w1, temp_files, None) =>
                let '(w2, r) :=
                  _merge_audio_files temp_files final_destination w1 in
                Some (cleanup temp_files w2, r)
            end
        end
  end.

End Worker.

(** ** Sample collaborators

    One way the collaborators can behave, to run the worker on: a
    plain-text [save] that writes three bytes, a pre-processing that
    returns the text as it is, a [mkstemp] with two names to give, a
    [with_suffix] that replaces what follows the last dot, and an [ffmpeg]
    that concatenates the files it is given. *)

Definition sample_build_ssml (text rate_str : str) (use_silence raw_content : bool)
  : bytes :=
  B "<speak/>".

Definition sample_communicate_save (input : str) (destination : bytes) (w : World)
  : World * option exn :=
  (write_file destination (B "ID3") w, None).

Definition sample_prepare (text : str) (gemini_enabled thinking_mode : bool)
  (w : World) : World * result str :=
  (w, inr text).

Definition sample_temp_file_name (w : World) : World * result bytes :=
  if decide (files w !! B "tmp1.mp3" = None)
  then (write_file (B "tmp1.mp3") [] w, inr (B "tmp1.mp3"))
  else if decide (files w !! B "tmp2.mp3" = None)
  then (write_file (B "tmp2.mp3") [] w, inr (B "tmp2.mp3"))
  else (w, inl (OtherError "FileExistsError")).

Definition sample_with_suffix_txt (p : bytes) : bytes :=
  (if rfind p (B ".") =? -1 then p else slice_to p (rfind p (B "."))) ++ B ".txt".

Definition sample_manifest (temp_files : list bytes) : bytes :=
  concat (map (fun f => B "file '" ++ f ++ B "'" ++ [LF]) temp_files).

Definition sample_ffmpeg (inputs : list bytes) (list_file output : bytes) (w : World)
  : World * result unit :=
  match mapM (fun f => files w !! f) inputs with
  | Some contents =>
      if decide (concat contents = [])
      then (w, inl (CalledProcessError "Output file is empty"))
      else (write_file output (concat contents) w, inr tt)
  | None => (w, inl (CalledProcessError "No such file or directory"))
  end.

Definition sample_single_file : str -> bytes -> World -> option (World * result unit) :=
  _generate_single_file (S_ "ru-RU-DmitryNeural") (S_ "+0%") false true false
    (B "audio-24khz-48kbitrate-mono-mp3") sample_build_ssml
    sample_communicate_save sample_prepare sample_temp_file_name
    sample_with_suffix_txt sample_manifest sample_ffmpeg.

(** No files yet, and a provider that answers every connection with one
    audio message and [turn.end]. *)
Definition sample_net : Net :=
  mkNet (fun _ => Established [Recv (WsBinary (audio_frame (B "mp3")));
                               Recv (WsText turn_end_frame)])
        (fun _ => None) 0 0.

Definition sample_world : World := mkWorld ∅ sample_net.

Definition sample_world_after : World :=
  mkWorld (<[B "out.mp3" := B "mp3"]> ∅)
          (mkNet (connection_at sample_net) (refresh_at sample_net) 1 0).


Definition sample_communicate_save_timeout (input : str) (destination : bytes)
  (w : World) : World * option exn :=
  (write_file destination [] w, Some TimeoutError).

End TtsWorker.

(* ===================================================================== *)
(** * [src/app/tts_worker.py]: the SSML builder                           *)
(* ===================================================================== *)

Module Markup.
Import Py SsmlClient TtsWorker.

(** [s.replace(old, new)] for a non-empty [old]: the pieces between the
    occurrences of [old], joined with [new]. *)
Definition replace (s old new : str) : str := join new (split s old).

(** [str(n)] for an integer. *)
Definition str_of_Z (n : Z) : str := S_ (NilZero.string_of_int (Z.to_int n)).

(** String literals of the source that hold double quotes are written
    with ['] here. *)
Definition Q (s : string) : str :=
  map (fun c => if decide (c = 39%N) then 34%N else c) (S_ s).

Definition AMP : N := 38%N.
Definition LT : N := 60%N.
Definition GT : N := 62%N.
Definition HYPHEN : N := 45%N.

(** [xml.sax.saxutils.escape]: three [replace] calls, the ampersand
    first. *)
Definition escape (data : str) : str :=
  replace (replace (replace data [AMP] (S_ "&amp;")) [GT] (S_ "&gt;"))
          [LT] (S_ "&lt;").

(** What the three passes of [escape] come to for one character. *)
Definition escape_char (c : N) : str :=
  if decide (c = AMP) then S_ "&amp;"
  else if decide (c = GT) then S_ "&gt;"
  else if decide (c = LT) then S_ "&lt;"
  else [c].

(** [_voice_lang] *)
Definition _voice_lang (voice_id : str) : str :=
  let parts := split voice_id [HYPHEN] in
  if len parts >=? 2 then join [HYPHEN] (slice_to parts 2) else S_ "en-US".

(** The character class [[.!?:…]]. *)
Definition is_break_punct (c : N) : bool :=
  ((c =? 46) || (c =? 33) || (c =? 63) || (c =? 58) || (c =? 8230))%N.

Fixpoint take_while (P : N -> bool) (s : str) : str :=
  match s with
  | c :: s' => if P c then c :: take_while P s' else []
  | [] => []
  end.

Fixpoint drop_while (P : N -> bool) (s : str) : str :=
  match s with
  | c :: s' => if P c then drop_while P s' else s
  | [] => []
  end.

Definition nonempty (s : str) : bool :=
  match s with
  | [] => false
  | _ :: _ => true
  end.

(** [re.sub(r"([.!?:…]+)(\s+)", rf"\1{break_tag}\2", text)], scanning from
    the left.  At a position the pattern matches when the longest run of
    punctuation marks there is non-empty and is followed by white space:
    a shorter run would be followed by a punctuation mark, so backtracking
    finds nothing more.  A match takes the whole run and all the white
    space after it; without a match the scan moves on by one character.
    Every match consumes at least two characters, so one unit of fuel per
    character is enough. *)
Fixpoint sub_breaks (fuel : nat) (break_tag text : str) : str :=
  match fuel with
  | O => text
  | S fuel' =>
      match text with
      | [] => []
      | c :: text' =>
          let marks := take_while is_break_punct text in
          let after := drop_while is_break_punct text in
          let spaces := take_while isspace after in
          let rest := drop_while isspace after in
          if nonempty marks && nonempty spaces
          then marks ++ break_tag ++ spaces ++ sub_breaks fuel' break_tag rest
          else c :: sub_breaks fuel' break_tag text'
      end
  end.

Definition break_tag (pause_value : Z) : str :=
  Q "<break time='" ++ str_of_Z pause_value ++ Q "ms'/>".

(** [_inject_breaks] *)
Definition _inject_breaks (text : str) (pause_value : Z) : str :=
  sub_breaks (length text) (break_tag pause_value) text.

(** [_build_ssml]; [rate] and [pause_ms] are the fields of the worker. *)
Definition _build_ssml (voice_id : str) (rate pause_ms : Z)
  (text rate_str : str) (use_silence raw_content : bool) : str :=
  let text := strip text in
  let escaped_text := if raw_content then text else escape text in
  let lang := _voice_lang voice_id in
  let pause_value := Z.max 0 pause_ms in
  let body_text :=
    if pause_value >? 0 then _inject_breaks escaped_text pause_value
    else escaped_text in
  let body :=
    if negb (rate =? 0)
    then Q "<prosody rate='" ++ rate_str ++ Q "'>" ++ body_text
         ++ S_ "</prosody>"
    else body_text in
  let silence_block :=
    if use_silence && (pause_value >? 0)
    then Q "    <mstts:silence type='Sentenceboundary-exact' value='"
         ++ str_of_Z pause_value ++ Q "ms'/>" ++ [NL]
    else [] in
  Q "<speak version='1.0' xmlns='http://www.w3.org/2001/10/synthesis'" ++ [NL]
  ++ Q "       xmlns:mstts='http://www.w3.org/2001/mstts' "
  ++ Q "xml:lang='" ++ lang ++ Q "'>" ++ [NL]
  ++ Q "  <voice name='" ++ escape voice_id ++ Q "'>" ++ [NL]
  ++ silence_block
  ++ S_ "    " ++ body ++ [NL]
  ++ S_ "  </voice>" ++ [NL]
  ++ S_ "</speak>".

(** The rule the substitution comes to: a break after every punctuation
    mark that has white space right behind it. *)
Fixpoint breaks_by_rule (break_tag text : str) : str :=
  match text with
  | [] => []
  | c :: text' =>
      match text' with
      | d :: _ =>
          if is_break_punct c && isspace d
          then c :: break_tag ++ breaks_by_rule break_tag text'
          else c :: breaks_by_rule break_tag text'
      | [] => [c]
      end
  end.

End Markup.

(* ===================================================================== *)
(** * [src/app/tts_worker.py]: the batch loop                             *)
(* ===================================================================== *)

Module Batch.
Import Py SsmlClient TtsWorker.

(** The signals [_process_batch] emits itself.  [Error] stands for the
    text built from the exception and its traceback. *)
Inductive signal : Type :=
| BatchProgress (current total : Z) (filename : bytes)
| FileFinished (path : bytes)
| Finished (path : bytes)
| Error (exc : exn).

Definition is_terminal (sg : signal) : bool :=
  match sg with
  | Finished _ | Error _ => true
  | _ => false
  end.

Definition finished_files (sigs : list signal) : list bytes :=
  omap (fun sg => match sg with FileFinished p => Some p | _ => None end) sigs.

Section Batch.

(** [single_file] is [_generate_single_file] with the fields of the
    worker, [path_name] is [Path.name]. *)
Variable single_file : str -> bytes -> World -> option (World * result unit).
Variable _temp_file_name : World -> World * result bytes.
Variable path_name : bytes -> bytes.

(** The [for i, (text, output_path) in enumerate(tasks)] loop: the signals
    emitted, the value of [last_generated_path], and the exception that
    ended the loop, if any.  [None] only if a file generation does not
    return. *)
Fixpoint batch_loop (i total_files : Z) (tasks : list (str * option bytes))
  (last_generated_path : bytes) (w : World)
  : option (World * list signal * bytes * option exn) :=
  match tasks with
  | [] => Some (w, [], last_generated_path, None)
  | (text, output_path) :: rest =>
      let '(w1, destination) :=
        match output_path with
        | Some p => (w, inr p)
        | None => _temp_file_name w
        end in
      match destination with
      | inl e => Some (w1, [], last_generated_path, Some e)
      | inr final_destination =>
          let progress :=
            BatchProgress (i + 1) total_files (path_name final_destination) in
          match single_file text final_destination w1 with
          | None => None
          | Some (w2, inl e) => Some (w2, [progress], final_destination, Some e)
          | Some (w2, inr _) =>
              match batch_loop (i + 1) total_files rest final_destination w2 with
              | None => None
              | Some (w3, sigs, last, r) =>
                  Some (w3, progress :: FileFinished final_destination :: sigs,
                        last, r)
              end
          end
      end
  end.

(** [_process_batch]: the loop, then [finished] or, in the
    [except Exception] branch, [error].  The last component is the
    exception that leaves [_process_batch], if any: one that the
    [except Exception] clause does not catch. *)
Definition _process_batch (tasks : list (str * option bytes)) (w : World)
  : option (World * list signal * option exn) :=
  match batch_loop 0 (len tasks) tasks [] w with
  | None => None
  | Some (w', sigs, last_generated_path, None) =>
      Some (w', sigs ++ [Finished last_generated_path], None)
  | Some (w', sigs, _, Some exc) =>
      if is_exception exc then Some (w', sigs ++ [Error exc], None)
      else Some (w', sigs, Some exc)
  end.

End Batch.

End Batch.

(* ===================================================================== *)
(** * The schedule of [_generate_audio]                                   *)
(* ===================================================================== *)

Module Schedule.
Import TtsWorker.

(** Everything [_generate_audio] can do to the outside, in order. *)
Definition full_schedule : list event :=
  [Attempt SilenceTagged; Attempt BreakTagged; Attempt PlainOrRawText;
   Sleep 1;
   Attempt SilenceTagged; Attempt BreakTagged; Attempt PlainOrRawText;
   Sleep 2;
   Attempt SilenceTagged; Attempt BreakTagged; Attempt PlainOrRawText].

(** The seconds slept in a trace. *)
Definition slept (tr : list event) : Z :=
  foldr (fun ev acc => match ev with Sleep s => s + acc | Attempt _ => acc end)
        0 tr.

End Schedule.

(* ===================================================================== *)
(** * Facts about the Python builtins                                     *)
(* ===================================================================== *)

Module PyFacts.
Import Py.

Section SequenceFacts.
Context {A : Type} `{EqDecision A}.
Implicit Types (s pat sep l : list A).

Lemma len_app s1 s2 : len (s1 ++ s2) = len s1 + len s2.
Proof. unfold len. rewrite length_app. lia. Qed.

Lemma len_nonneg s : 0 <= len s.
Proof. unfold len. lia. Qed.

Lemma slice_to_app_len s1 s2 : slice_to (s1 ++ s2) (len s1) = s1.
Proof.
  unfold slice_to, len.
  destruct (Z.ltb_spec (Z.of_nat (length s1)) 0) as [Hneg|_]; [lia|].
  rewrite Nat2Z.id. by rewrite take_app_length.
Qed.

Lemma slice_from_app_len s1 s2 : slice_from (s1 ++ s2) (len s1) = s2.
Proof.
  unfold slice_from, len.
  destruct (Z.ltb_spec (Z.of_nat (length s1)) 0) as [Hneg|_]; [lia|].
  rewrite Nat2Z.id. by rewrite drop_app_length.
Qed.

Lemma slice_to_nonneg s i : 0 <= i -> slice_to s i = take (Z.to_nat i) s.
Proof. intros Hi. unfold slice_to. destruct (Z.ltb_spec i 0); [lia|done]. Qed.

Lemma slice_from_nonneg s i : 0 <= i -> slice_from s i = drop (Z.to_nat i) s.
Proof. intros Hi. unfold slice_from. destruct (Z.ltb_spec i 0); [lia|done]. Qed.

Lemma slice_to_from s i : slice_to s i ++ slice_from s i = s.
Proof.
  unfold slice_to, slice_from. destruct (i <? 0); apply take_drop.
Qed.

Lemma startswith_app pat s : startswith pat (pat ++ s) = true.
Proof.
  induction pat as [|p pat IH]; [done|].
  simpl. rewrite IH. by rewrite bool_decide_eq_true_2.
Qed.

Lemma startswith_true pat s :
  startswith pat s = true <-> exists r, s = pat ++ r.
Proof.
  split.
  - revert s. induction pat as [|p pat IH]; intros s Hs; [by exists s|].
    destruct s as [|c s]; [done|]. simpl in Hs.
    apply andb_true_iff in Hs as [Hp Hs]. apply bool_decide_eq_true in Hp.
    destruct (IH _ Hs) as [r ->]. exists r. by rewrite Hp.
  - intros [r ->]. apply startswith_app.
Qed.

(** Skipping the tail of a matched separator. *)
Lemma split_go_skip sep m pre rest :
  split_go sep m (length pre) (pre ++ rest) = split_go sep m 0 rest.
Proof.
  induction pre as [|c pre IH]; [|exact IH].
  simpl. by destruct rest.
Qed.

Lemma split_go_zero sep s : split_go sep 0 0 s = [s].
Proof. by destruct s. Qed.

(** A piece that the separator does not start in is cut off whole. *)
Lemma split_go_first sep m l rest :
  sep <> [] -> m <> 0 ->
  (forall i, (i < length l)%nat ->
             startswith sep (drop i (l ++ sep ++ rest)) = false) ->
  split_go sep m 0 (l ++ sep ++ rest) = l :: split_go sep (m - 1) 0 rest.
Proof.
  intros Hsep Hm. induction l as [|c l IH]; intros Hno.
  - destruct sep as [|p sep']; [done|]. simpl app at 1.
    cbn [split_go]. destruct (Z.eqb_spec m 0) as [|_]; [done|].
    change (p :: sep' ++ rest) with ((p :: sep') ++ rest).
    rewrite startswith_app. f_equal.
    replace (length (p :: sep') - 1)%nat with (length sep') by (simpl; lia).
    apply split_go_skip.
  - simpl app. cbn [split_go]. destruct (Z.eqb_spec m 0) as [|_]; [done|].
    pose proof (Hno 0%nat ltac:(simpl; lia)) as H0. simpl in H0.
    rewrite H0. rewrite IH; [done|].
    intros i Hi. apply (Hno (S i)). simpl. lia.
Qed.

(** Without any occurrence of the separator there is one piece. *)
Lemma split_go_none sep m l :
  (forall i, startswith sep (drop i l) = false) ->
  split_go sep m 0 l = [l].
Proof.
  induction l as [|c l IH]; intros Hno; [done|].
  cbn [split_go]. destruct (m =? 0); [done|].
  pose proof (Hno 0%nat) as H0. simpl in H0. rewrite H0.
  rewrite IH; [done|]. intros i. apply (Hno (S i)).
Qed.

Lemma find_from_cons pat c s i :
  find_from pat (c :: s) i
  = if startswith pat (c :: s) then i else find_from pat s (i + 1).
Proof. done. Qed.

(** [find] answers [-1] exactly when the pattern occurs nowhere. *)
Lemma find_from_lower pat s i : 0 <= i -> find_from pat s i = -1 \/ i <= find_from pat s i.
Proof.
  revert i. induction s as [|c s IH]; intros i Hi; simpl.
  - destruct (startswith pat []); lia.
  - destruct (startswith pat (c :: s)); [lia|].
    destruct (IH (i + 1)) as [->|]; lia.
Qed.

Lemma find_from_none pat s i :
  0 <= i ->
  find_from pat s i = -1 <-> forall k, startswith pat (drop k s) = false.
Proof.
  revert i. induction s as [|c s IH]; intros i Hi.
  - simpl. destruct (startswith pat []) eqn:E.
    + split; [lia|]. intros Hk. specialize (Hk 0%nat). simpl in Hk. congruence.
    + split; [|done]. intros _ k. by rewrite drop_nil.
  - cbn [find_from]. destruct (startswith pat (c :: s)) eqn:E.
    + split; [lia|]. intros Hk. specialize (Hk 0%nat). simpl in Hk. congruence.
    + rewrite IH by lia. split.
      * intros Hk [|k]; [done|]. apply Hk.
      * intros Hk k. apply (Hk (S k)).
Qed.

Lemma find_none s pat :
  find s pat = -1 <-> forall k, startswith pat (drop k s) = false.
Proof. apply find_from_none. lia. Qed.

Lemma startswith_length pat s :
  startswith pat s = true -> (length pat <= length s)%nat.
Proof.
  intros H. apply startswith_true in H as [r ->]. rewrite length_app. lia.
Qed.

(** [rfind] answers [-1] when the pattern occurs nowhere, and otherwise the
    last place where it occurs. *)
Lemma rfind_from_spec pat s i :
  0 <= i ->
  let r := rfind_from pat s i in
  (r = -1 /\ forall k, (k <= length s)%nat -> startswith pat (drop k s) = false)
  \/ (i <= r <= i + len s
      /\ startswith pat (drop (Z.to_nat (r - i)) s) = true
      /\ forall k, (k <= length s)%nat ->
                   startswith pat (drop k s) = true -> i + Z.of_nat k <= r).
Proof.
  revert i. induction s as [|c s IH]; intros i Hi; cbn [rfind_from].
  - destruct (startswith pat []) eqn:E.
    + right. unfold len. simpl. split; [lia|]. split.
      * by rewrite Z.sub_diag.
      * intros k Hk _. lia.
    + left. split; [done|]. intros k _. by rewrite drop_nil.
  - destruct (IH (i + 1) ltac:(lia)) as [[Hr Hnone]|(Hr & Hocc & Hmax)].
    + rewrite Hr. simpl. destruct (startswith pat (c :: s)) eqn:E.
      * right. unfold len. simpl length. split; [lia|]. split.
        -- by rewrite Z.sub_diag.
        -- intros [|k] Hk Hs; [lia|]. simpl in Hs.
           rewrite Hnone in Hs by lia. done.
      * left. split; [done|]. intros [|k] Hk; [done|]. apply Hnone. lia.
    + destruct (Z.eqb_spec (rfind_from pat s (i + 1)) (-1)) as [Heq|_]; [lia|].
      right. unfold len in *. simpl length. split; [lia|]. split.
      * replace (Z.to_nat (rfind_from pat s (i + 1) - i))
          with (S (Z.to_nat (rfind_from pat s (i + 1) - (i + 1)))) by lia.
        exact Hocc.
      * intros [|k] Hk Hs; [lia|]. simpl in Hs.
        specialize (Hmax k ltac:(lia) Hs). lia.
Qed.

Lemma rfind_spec s pat :
  (rfind s pat = -1
   /\ forall k, (k <= length s)%nat -> startswith pat (drop k s) = false)
  \/ (0 <= rfind s pat <= len s
      /\ startswith pat (drop (Z.to_nat (rfind s pat)) s) = true
      /\ forall k, (k <= length s)%nat ->
                   startswith pat (drop k s) = true -> Z.of_nat k <= rfind s pat).
Proof.
  unfold rfind. destruct (rfind_from_spec pat s 0 ltac:(lia)) as [H|(H1 & H2 & H3)].
  - by left.
  - right. rewrite Z.sub_0_r in H2. split; [lia|]. split; [done|].
    intros k Hk Hs. specialize (H3 k Hk Hs). lia.
Qed.

(** Where a non-empty pattern is found, it fits. *)
Lemma rfind_fits s pat :
  rfind s pat <> -1 -> 0 <= rfind s pat /\ rfind s pat + len pat <= len s.
Proof.
  intros Hne. destruct (rfind_spec s pat) as [[H _]|(Hr & Hocc & _)]; [done|].
  split; [lia|]. apply startswith_length in Hocc.
  rewrite length_drop in Hocc. unfold len in *. lia.
Qed.

End SequenceFacts.

(** ** [strip] *)

Lemma lstrip_split s :
  exists ws, s = ws ++ lstrip s /\ Forall (fun c => isspace c = true) ws.
Proof.
  induction s as [|c s (ws & Hs & Hws)]; [by exists []|].
  simpl. destruct (isspace c) eqn:E.
  - exists (c :: ws). split; [by rewrite <- app_comm_cons, <- Hs|by constructor].
  - by exists [].
Qed.

Lemma filter_nonspace_spaces ws :
  Forall (fun c => isspace c = true) ws -> filter nonspace ws = [].
Proof.
  induction 1 as [|c ws Hc _ IH]; [done|].
  rewrite filter_cons_False; [done|]. unfold nonspace. congruence.
Qed.

Lemma lstrip_length s : (length (lstrip s) <= length s)%nat.
Proof.
  destruct (lstrip_split s) as (ws & Hs & _).
  rewrite Hs at 2. rewrite length_app. lia.
Qed.

Lemma lstrip_filter s : filter nonspace (lstrip s) = filter nonspace s.
Proof.
  destruct (lstrip_split s) as (ws & Hs & Hws).
  rewrite Hs at 2. by rewrite filter_app, (filter_nonspace_spaces ws).
Qed.

Lemma filter_rev {A} (P : A -> Prop) `{forall x, Decision (P x)} (l : list A) :
  filter P (rev l) = rev (filter P l).
Proof.
  induction l as [|x l IH]; [done|]. simpl rev. rewrite filter_app, IH.
  rewrite filter_cons. destruct (decide (P x)).
  - by rewrite filter_cons_True.
  - rewrite filter_cons_False by done. simpl. by rewrite app_nil_r.
Qed.

Lemma rstrip_length s : (length (rstrip s) <= length s)%nat.
Proof.
  unfold rstrip. rewrite length_rev.
  etrans; [apply lstrip_length|]. by rewrite length_rev.
Qed.

Lemma rstrip_filter s : filter nonspace (rstrip s) = filter nonspace s.
Proof.
  unfold rstrip. by rewrite filter_rev, lstrip_filter, filter_rev, rev_involutive.
Qed.

Lemma strip_length s : (length (strip s) <= length s)%nat.
Proof.
  unfold strip. etrans; [apply rstrip_length|apply lstrip_length].
Qed.

(** Stripping loses no character that is not white space. *)
Lemma strip_filter s : filter nonspace (strip s) = filter nonspace s.
Proof. unfold strip. by rewrite rstrip_filter, lstrip_filter. Qed.

Lemma lstrip_head s c r : lstrip s = c :: r -> isspace c = false.
Proof.
  induction s as [|x s IH]; [done|]. simpl.
  destruct (isspace x) eqn:E; [exact IH|]. intros [= -> _]. exact E.
Qed.

Lemma lstrip_snoc_nonspace s c :
  isspace c = false -> lstrip (s ++ [c]) = lstrip s ++ [c].
Proof.
  intros Hc. induction s as [|x s IH]; simpl; [by rewrite Hc|].
  by destruct (isspace x).
Qed.

Lemma rstrip_cons_nonspace c r :
  isspace c = false -> rstrip (c :: r) = c :: rstrip r.
Proof.
  intros Hc. unfold rstrip. simpl rev.
  by rewrite lstrip_snoc_nonspace, rev_app_distr.
Qed.

(** What [strip] returns is empty or begins with a character that is not
    white space. *)
Lemma strip_head s c r : strip s = c :: r -> isspace c = false.
Proof.
  unfold strip. destruct (lstrip s) as [|x l] eqn:E; [done|].
  pose proof (lstrip_head _ _ _ E) as Hx.
  rewrite rstrip_cons_nonspace by done. by intros [= <- _].
Qed.

Lemma lstrip_nonspace c r : isspace c = false -> lstrip (c :: r) = c :: r.
Proof. intros Hc. simpl. by rewrite Hc. Qed.

Lemma strip_cons_nonspace c r :
  isspace c = false -> strip (c :: r) = c :: rstrip r.
Proof.
  intros Hc. unfold strip. rewrite lstrip_nonspace by done.
  by apply rstrip_cons_nonspace.
Qed.

(** A piece that begins with a character that is not white space keeps it
    when a prefix of it is stripped. *)
Lemma strip_take_nonspace c r (n : nat) :
  isspace c = false -> (0 < n)%nat -> strip (take n (c :: r)) <> [].
Proof.
  intros Hc Hn. destruct n as [|n]; [lia|]. simpl take.
  by rewrite strip_cons_nonspace.
Qed.

Lemma strip_space_shorter c r :
  isspace c = true -> (length (strip (c :: r)) < length (c :: r))%nat.
Proof.
  intros Hc. unfold strip. simpl lstrip. rewrite Hc. simpl length.
  pose proof (rstrip_length (lstrip r)). pose proof (lstrip_length r). lia.
Qed.

End PyFacts.

(* ===================================================================== *)
(** * The frame codec: properties                                         *)
(* ===================================================================== *)

Module CodecFacts.
Import Py PyFacts SsmlClient.

Lemma nocrlf_nil : nocrlf [].
Proof. reflexivity. Qed.

Lemma nocrlf_cons c l :
  nocrlf (c :: l) <-> startswith CRLF (c :: l) = false /\ nocrlf l.
Proof.
  unfold nocrlf. rewrite !find_none. split.
  - intros H. split; [apply (H 0%nat)|]. intros k. apply (H (S k)).
  - intros [H0 H] [|k]; [done|apply H].
Qed.

Lemma nocrlf_drop l k : nocrlf l -> startswith CRLF (drop k l) = false.
Proof. unfold nocrlf. rewrite find_none. intros H. apply H. Qed.

(** A [CR] that follows a non-empty piece does not complete a [CRLF]. *)
Lemma startswith_crlf_app_cr l r :
  l <> [] -> startswith CRLF (l ++ CR :: r) = startswith CRLF l.
Proof.
  destruct l as [|x [|y l]]; [done| |done].
  intros _. simpl. by rewrite andb_false_r.
Qed.

Lemma nocrlf_app_const k l : CR ∉ k -> nocrlf l -> nocrlf (k ++ l).
Proof.
  induction k as [|c k IH]; intros Hk Hl; [done|].
  simpl. apply nocrlf_cons. split.
  - apply not_elem_of_cons in Hk as [Hc _]. simpl.
    by rewrite bool_decide_eq_false_2.
  - apply IH; [|done]. by apply not_elem_of_cons in Hk as [_ Hk].
Qed.

Lemma nocrlf_snoc l z : z <> LF -> nocrlf l -> nocrlf (l ++ [z]).
Proof.
  intros Hz. induction l as [|c l IH]; intros Hl.
  - apply nocrlf_cons. split; [|done]. simpl. by rewrite andb_false_r.
  - apply nocrlf_cons in Hl as [Hc Hl]. simpl. apply nocrlf_cons.
    split; [|by apply IH].
    destruct l as [|d l]; [|exact Hc].
    simpl. rewrite (bool_decide_eq_false_2 (LF = z)) by done.
    by rewrite andb_false_r.
Qed.

(** The first line of a block is cut where its [CRLF] stands. *)
Lemma split_crlf_line l rest m :
  nocrlf l -> m <> 0 ->
  split_go CRLF m 0 (l ++ CRLF ++ rest) = l :: split_go CRLF (m - 1) 0 rest.
Proof.
  intros Hl Hm. apply split_go_first; [done|done|].
  intros i Hi. rewrite drop_app_le by lia.
  change (CRLF ++ rest) with (CR :: LF :: rest).
  rewrite startswith_crlf_app_cr; [by apply nocrlf_drop|].
  intros Hnil. apply (f_equal length) in Hnil. rewrite length_drop in Hnil.
  simpl in Hnil. lia.
Qed.

Lemma split_crlf_last l m : nocrlf l -> split_go CRLF m 0 l = [l].
Proof. intros Hl. apply split_go_none. apply find_none, Hl. Qed.

Lemma split_join_crlf ls m :
  ls <> [] -> m < 0 -> Forall nocrlf ls ->
  split_go CRLF m 0 (join_crlf ls) = ls.
Proof.
  revert m. induction ls as [|l ls IH]; intros m Hne Hm Hall; [done|].
  inversion Hall as [|? ? Hl Hls]; subst.
  destruct ls as [|l' ls]; [by apply split_crlf_last|].
  change (join_crlf (l :: l' :: ls)) with (l ++ CRLF ++ join_crlf (l' :: ls)).
  rewrite split_crlf_line by (done || lia).
  f_equal. apply IH; [done|lia|done].
Qed.

(** The blank line is not found inside a line, nor across the end of a
    line that is followed by something other than a [CR]. *)
Lemma startswith_blank_line_false l r :
  l <> [] -> nocrlf l -> startswith (CRLF ++ CRLF) (l ++ CR :: r) = false.
Proof.
  intros Hne Hl.
  destruct (startswith (CRLF ++ CRLF) (l ++ CR :: r)) eqn:E; [|done].
  apply startswith_true in E as [r' E].
  assert (startswith CRLF (l ++ CR :: r) = true) as Hs.
  { apply startswith_true. exists (CRLF ++ r'). by rewrite E, <- app_assoc. }
  rewrite startswith_crlf_app_cr in Hs by done.
  pose proof (nocrlf_drop l 0 Hl) as H0. rewrite drop_0 in H0. congruence.
Qed.

Lemma find_blank_line_skip l c r i :
  nocrlf l -> c <> CR ->
  find_from (CRLF ++ CRLF) (l ++ CRLF ++ c :: r) i
  = find_from (CRLF ++ CRLF) (c :: r) (i + len l + 2).
Proof.
  revert i. induction l as [|x l IH]; intros i Hl Hc.
  - replace (i + len [] + 2) with (i + 1 + 1) by (unfold len; simpl length; lia).
    change ([] ++ CRLF ++ c :: r) with (CR :: LF :: c :: r).
    rewrite (find_from_cons _ CR), (find_from_cons _ LF).
    replace (startswith (CRLF ++ CRLF) (CR :: LF :: c :: r)) with false
      by (simpl; by rewrite (bool_decide_eq_false_2 (CR = c))).
    by replace (startswith (CRLF ++ CRLF) (LF :: c :: r)) with false by done.
  - change ((x :: l) ++ CRLF ++ c :: r) with (x :: (l ++ CRLF ++ c :: r)).
    rewrite (find_from_cons _ x).
    change (x :: l ++ CRLF ++ c :: r) with ((x :: l) ++ CR :: LF :: c :: r).
    rewrite startswith_blank_line_false by done.
    apply nocrlf_cons in Hl as [_ Hl].
    change (l ++ CR :: LF :: c :: r) with (l ++ CRLF ++ c :: r).
    rewrite IH by done.
    f_equal. unfold len. simpl length. lia.
Qed.

Lemma find_blank_line_here l body i :
  nocrlf l -> find_from (CRLF ++ CRLF) (l ++ (CRLF ++ CRLF) ++ body) i = i + len l.
Proof.
  revert i. induction l as [|x l IH]; intros i Hl.
  - rewrite app_nil_l. destruct ((CRLF ++ CRLF) ++ body) eqn:E; [done|].
    rewrite find_from_cons, <- E, startswith_app. unfold len. simpl. lia.
  - change ((x :: l) ++ (CRLF ++ CRLF) ++ body)
      with (x :: (l ++ (CRLF ++ CRLF) ++ body)).
    rewrite (find_from_cons _ x).
    change (x :: l ++ (CRLF ++ CRLF) ++ body)
      with ((x :: l) ++ CR :: LF :: CRLF ++ body).
    rewrite startswith_blank_line_false by done.
    apply nocrlf_cons in Hl as [_ Hl].
    change (l ++ CR :: LF :: CRLF ++ body) with (l ++ (CRLF ++ CRLF) ++ body).
    rewrite IH by done. unfold len. simpl length. lia.
Qed.

(** In a block of lines followed by a blank line, the blank line is found
    right after the block. *)
Lemma find_blank_line_join ls body i :
  ls <> [] -> Forall nocrlf ls ->
  Forall (fun l => exists c r, l = c :: r /\ c <> CR) (tail ls) ->
  find_from (CRLF ++ CRLF) (join_crlf ls ++ (CRLF ++ CRLF) ++ body) i
  = i + len (join_crlf ls).
Proof.
  revert i. induction ls as [|l ls IH]; intros i Hne Hall Hheads; [done|].
  inversion Hall as [|? ? Hl Hls]; subst.
  destruct ls as [|l' ls]; [by apply find_blank_line_here|].
  change (join_crlf (l :: l' :: ls)) with (l ++ CRLF ++ join_crlf (l' :: ls)).
  simpl in Hheads. inversion Hheads as [|? ? (c & r & -> & Hc) Hheads']; subst.
  assert (exists r', join_crlf ((c :: r) :: ls) = c :: r') as [r' Hj].
  { destruct ls; simpl; eauto. }
  rewrite <- (app_assoc l), <- (app_assoc CRLF (join_crlf _)). rewrite Hj.
  change ((c :: r') ++ (CRLF ++ CRLF) ++ body)
    with (c :: (r' ++ (CRLF ++ CRLF) ++ body)).
  rewrite find_blank_line_skip by done.
  change (c :: (r' ++ (CRLF ++ CRLF) ++ body))
    with ((c :: r') ++ (CRLF ++ CRLF) ++ body).
  rewrite <- Hj. rewrite IH by done.
  rewrite !len_app. change (len CRLF) with 2. lia.
Qed.

(** A line [key:value] whose key has no colon is unpacked as written. *)
Lemma split_header_line key value :
  find key (B ":") = -1 ->
  split_n (key ++ B ":" ++ value) (B ":") 1 = [key; value].
Proof.
  intros Hkey. unfold split_n.
  rewrite split_go_first; [by rewrite split_go_zero|done|done|].
  intros i Hi. rewrite drop_app_le by lia.
  pose proof (proj1 (find_none key (B ":")) Hkey i) as Hi'.
  destruct (drop i key) as [|x l] eqn:E.
  - apply (f_equal length) in E. rewrite length_drop in E. simpl in E. lia.
  - simpl in *. by rewrite andb_true_r in *.
Qed.

Lemma slice_from_blank_line block body :
  slice_from (block ++ (CRLF ++ CRLF) ++ body) (len block + 2) = CRLF ++ body.
Proof.
  change (block ++ (CRLF ++ CRLF) ++ body) with (block ++ CRLF ++ CRLF ++ body).
  rewrite (app_assoc block). change 2 with (len CRLF).
  rewrite <- len_app. apply slice_from_app_len.
Qed.

(** Decoding a block of header lines, a blank line and a body: the lines
    come back one by one, the body with the second half of the blank line
    in front. *)
Lemma decode_block lines body :
  lines <> [] -> Forall nocrlf lines ->
  Forall (fun l => exists c r, l = c :: r /\ c <> CR) (tail lines) ->
  decode_text_frame (join_crlf lines ++ (CRLF ++ CRLF) ++ body)
  = match header_loop lines ∅ with
    | inl e => inl e
    | inr headers => inr (headers, CRLF ++ body)
    end.
Proof.
  intros Hne Hall Hheads. unfold decode_text_frame, find.
  rewrite find_blank_line_join by done. rewrite Z.add_0_l.
  unfold get_headers_and_data. rewrite slice_to_app_len.
  unfold split, split_n. rewrite split_join_crlf by done.
  by rewrite slice_from_blank_line.
Qed.

Local Ltac no_cr := apply (bool_decide_unpack _); vm_compute; reflexivity.

Local Ltac line_ok :=
  first [ reflexivity
        | repeat (apply nocrlf_app_const; [no_cr|]);
          first [ assumption | by apply nocrlf_snoc ] ].

Local Ltac lines_ok :=
  repeat first [ apply Forall_nil_2 | apply Forall_cons_2; [line_ok|] ].

(** C2 (frame round trip), as the code has it. For a request id, a time
    stamp and a date without [CRLF] inside, and any SSML body and output
    format, decoding the payload message and the configuration message the
    way the text-frame handler does gives back exactly the headers they
    were written with; the body comes back with the two bytes [CRLF] in
    front of it, because the decoder skips two bytes after the header
    block and the blank line has four. *)
Theorem frame_roundtrip (request_id timestamp ssml date output_format : bytes) :
  nocrlf request_id -> nocrlf timestamp -> nocrlf date ->
  decode_text_frame (ssml_headers_plus_data request_id timestamp ssml)
  = inr (payload_headers request_id timestamp, CRLF ++ ssml)
  /\ decode_text_frame (speech_config_message date output_format)
     = inr (config_headers date, CRLF ++ speech_config_body output_format).
Proof.
  intros Hid Hts Hdate. split.
  - assert (ssml_headers_plus_data request_id timestamp ssml
            = join_crlf [B "X-RequestId" ++ B ":" ++ request_id;
                         B "Content-Type" ++ B ":" ++ B "application/ssml+xml";
                         B "X-Timestamp" ++ B ":" ++ timestamp ++ B "Z";
                         B "Path" ++ B ":" ++ B "ssml"]
              ++ (CRLF ++ CRLF) ++ ssml) as ->.
    { unfold ssml_headers_plus_data. cbn [join_crlf].
      rewrite <- !app_assoc. reflexivity. }
    rewrite decode_block.
    + cbn [header_loop]. by rewrite !split_header_line by reflexivity.
    + done.
    + lines_ok.
    + repeat (apply Forall_cons_2; [by eexists _, _|]). apply Forall_nil_2.
  - assert (speech_config_message date output_format
            = join_crlf [B "X-Timestamp" ++ B ":" ++ date;
                         B "Content-Type" ++ B ":" ++ B "application/json; charset=utf-8";
                         B "Path" ++ B ":" ++ B "speech.config"]
              ++ (CRLF ++ CRLF) ++ speech_config_body output_format) as ->.
    { unfold speech_config_message. cbn [join_crlf].
      rewrite <- !app_assoc. reflexivity. }
    rewrite decode_block.
    + cbn [header_loop]. by rewrite !split_header_line by reflexivity.
    + done.
    + lines_ok.
    + repeat (apply Forall_cons_2; [by eexists _, _|]). apply Forall_nil_2.
Qed.

Lemma frame_roundtrip_witness :
  decode_text_frame (ssml_headers_plus_data (B "0a1b") (B "Tue Nov 03 2026 11:13:00") (B "<speak/>"))
  = inr (payload_headers (B "0a1b") (B "Tue Nov 03 2026 11:13:00"), CRLF ++ B "<speak/>").
Proof.
  apply (frame_roundtrip (B "0a1b") (B "Tue Nov 03 2026 11:13:00") (B "<speak/>")
           (B "Tue Nov 03 2026 11:13:00") (B "audio-24khz-48kbitrate-mono-mp3"));
    reflexivity.
Defined.

(** C2, refuted as stated: the decoded body of a payload message is not the
    body that was encoded, it has [CRLF] in front; and a request id with a
    line break inside does not come back at all, the decoder raises. *)
Lemma frame_roundtrip_refuted :
  decode_text_frame (ssml_headers_plus_data (B "0a1b") (B "now") (B "<speak/>"))
  <> inr (payload_headers (B "0a1b") (B "now"), B "<speak/>")
  /\ decode_text_frame (ssml_headers_plus_data (B "0a1b") (B "now") (B "<speak/>"))
     = inr (payload_headers (B "0a1b") (B "now"), CRLF ++ B "<speak/>")
  /\ decode_text_frame
       (ssml_headers_plus_data (B "0a" ++ CRLF ++ B "1b") (B "now") (B "<speak/>"))
     = inl (ValueError "not enough values to unpack (expected 2, got 1)").
Proof.
  assert (decode_text_frame (ssml_headers_plus_data (B "0a1b") (B "now") (B "<speak/>"))
          = inr (payload_headers (B "0a1b") (B "now"), CRLF ++ B "<speak/>")) as Heq
    by (vm_compute; reflexivity).
  split; [|split].
  - rewrite Heq. intros H. inversion H.
  - exact Heq.
  - vm_compute. reflexivity.
Qed.

End CodecFacts.

(* ===================================================================== *)
(** * The streaming session: properties                                   *)
(* ===================================================================== *)

Module SessionFacts.
Import Py SsmlClient.

(** A binary message the loop drops before looking at its headers. *)
Lemma frame_loop_drop_head d rest flag :
  len d < 2 \/ int_from_bytes_big (slice_to d 2) > len d ->
  frame_loop (Recv (WsBinary d) :: rest) flag = frame_loop rest flag.
Proof.
  intros Hd. cbn [frame_loop].
  destruct (Z.ltb_spec (len d) 2) as [|Hlen]; [done|].
  destruct Hd as [|Hd]; [lia|].
  destruct (Z.gtb_spec (int_from_bytes_big (slice_to d 2)) (len d)); [done|lia].
Qed.

(** One step of the loop on a message that is not the last word: either
    the loop ends there, whatever follows, or it goes on with the rest. *)
Lemma frame_loop_step ev flag :
  (exists r, forall rest, frame_loop (ev :: rest) flag = r)
  \/ (exists flag', (forall rest, frame_loop (ev :: rest) flag = frame_loop rest flag'))
  \/ (exists c flag', forall rest,
         frame_loop (ev :: rest) flag = yield_ c (frame_loop rest flag')).
Proof.
  destruct ev as [[data|data|data|]|e]; cbn [frame_loop].
  - destruct (decode_text_frame data) as [e|[parameters body]]; [eauto|].
    case_decide; eauto.
  - destruct (len data <? 2); [eauto|].
    destruct (_ >? len data); [eauto|].
    destruct (get_headers_and_data data _) as [e|[parameters body]]; [eauto|].
    repeat case_decide; eauto.
    destruct (len body >? 0); eauto 10.
  - eauto.
  - eauto.
  - eauto.
Qed.

(** C8 (binary frame tolerance). A binary message shorter than 2 bytes, or
    whose 2-byte big-endian header length exceeds the length of the whole
    message, is dropped: wherever it stands in the incoming sequence, the
    frame loop yields the same chunks, keeps the same flag and ends the
    same way as without it; in particular it raises nothing on its
    account. *)
Theorem binary_frame_tolerance (pre post : list ws_event) (d : bytes) (flag : bool) :
  len d < 2 \/ int_from_bytes_big (slice_to d 2) > len d ->
  frame_loop (pre ++ Recv (WsBinary d) :: post) flag
  = frame_loop (pre ++ post) flag.
Proof.
  intros Hd. revert flag. induction pre as [|ev pre IH]; intros flag.
  - by apply frame_loop_drop_head.
  - simpl app.
    destruct (frame_loop_step ev flag) as [[r Hr]|[[f Hf]|(c & f & Hf)]].
    + by rewrite !Hr.
    + by rewrite !Hf, IH.
    + by rewrite !Hf, IH.
Qed.

Lemma binary_frame_tolerance_witness :
  frame_loop ([Recv WsOther] ++ Recv (WsBinary [LF]) :: [Recv (WsText (B "x"))]) false
  = frame_loop ([Recv WsOther] ++ [Recv (WsText (B "x"))]) false.
Proof.
  apply (binary_frame_tolerance [Recv WsOther] [Recv (WsText (B "x"))] [LF] false).
  left. vm_compute. reflexivity.
Defined.

(** The flag [audio_was_received] is set exactly when a chunk was yielded. *)
Lemma frame_loop_flag incoming flag :
  (frame_loop incoming flag).1.2
  = flag || negb (bool_decide ((frame_loop incoming flag).1.1 = [])).
Proof.
  revert flag. induction incoming as [|ev rest IH]; intros flag.
  - simpl. by rewrite orb_false_r.
  - destruct ev as [[data|data|data|]|e]; cbn [frame_loop];
      try (simpl; by rewrite orb_false_r); try apply IH.
    + destruct (decode_text_frame data) as [e|[parameters body]];
        [simpl; by rewrite orb_false_r|].
      case_decide; [simpl; by rewrite orb_false_r|apply IH].
    + destruct (len data <? 2); [apply IH|].
      destruct (_ >? len data); [apply IH|].
      destruct (get_headers_and_data data _) as [e|[parameters body]];
        [simpl; by rewrite orb_false_r|].
      repeat case_decide; try apply IH.
      destruct (len body >? 0); [|apply IH].
      specialize (IH true). unfold yield_.
      destruct (frame_loop rest true) as [[ys f] ex]. simpl in *.
      by rewrite IH, orb_true_r.
Qed.

(** Every chunk the loop yields is an audio chunk with a non-empty payload. *)
Lemma frame_loop_yields incoming flag :
  Forall (fun c => chunk_type c = B "audio" /\ chunk_data c <> [])
         (frame_loop incoming flag).1.1.
Proof.
  revert flag. induction incoming as [|ev rest IH]; intros flag; [by constructor|].
  destruct ev as [[data|data|data|]|e]; cbn [frame_loop];
    try (by constructor); try apply IH.
  - destruct (decode_text_frame data) as [e|[parameters body]];
      [by constructor|].
    case_decide; [by constructor|apply IH].
  - destruct (len data <? 2); [apply IH|].
    destruct (_ >? len data); [apply IH|].
    destruct (get_headers_and_data data _) as [e|[parameters body]];
      [by constructor|].
    repeat case_decide; try apply IH.
    destruct (Z.gtb_spec (len body) 0) as [Hpos|]; [|apply IH].
    specialize (IH true). unfold yield_.
    destruct (frame_loop rest true) as [[ys f] ex]. simpl in *.
    constructor; [|done]. split; [done|]. simpl. intros ->. unfold len in Hpos.
    simpl in Hpos. lia.
Qed.

(** C6 (no-audio detection). When the frame loop of a session is left by
    [turn.end] or by the connection closing, and it has yielded no audio
    chunk, the session raises [NoAudioReceived] instead of ending
    normally; that exception is none of the transport errors (WebSocket
    error, client response error, timeout). *)
Theorem no_audio_detection (incoming : list ws_event) :
  (frame_loop incoming false).2 = TurnEnd \/ (frame_loop incoming false).2 = Closed ->
  (frame_loop incoming false).1.1 = [] ->
  stream_on (Established incoming) = ([], Some (NoAudioReceived no_audio_message))
  /\ (forall d, NoAudioReceived no_audio_message <> WebSocketError d)
  /\ (forall status, NoAudioReceived no_audio_message <> ClientResponseError status)
  /\ NoAudioReceived no_audio_message <> TimeoutError.
Proof.
  intros Hex Hys. split; [|done].
  unfold stream_on. pose proof (frame_loop_flag incoming false) as Hflag.
  destruct (frame_loop incoming false) as [[ys flag] ex]. simpl in *. subst ys.
  rewrite bool_decide_eq_true_2 in Hflag by done. simpl in Hflag. subst flag.
  by destruct Hex as [-> | ->].
Qed.

Lemma no_audio_detection_witness :
  stream_on (Established
               [Recv (WsText (B "Path:turn.start" ++ CRLF ++ CRLF));
                Recv (WsText (B "Path:turn.end" ++ CRLF ++ CRLF))])
  = ([], Some (NoAudioReceived no_audio_message)).
Proof.
  apply (no_audio_detection
           [Recv (WsText (B "Path:turn.start" ++ CRLF ++ CRLF));
            Recv (WsText (B "Path:turn.end" ++ CRLF ++ CRLF))]).
  - left. vm_compute. reflexivity.
  - vm_compute. reflexivity.
Defined.

Lemma written_app ys1 ys2 : written (ys1 ++ ys2) = written ys1 ++ written ys2.
Proof. unfold written. by rewrite filter_app, map_app, concat_app. Qed.

(** C5 (auth refresh), as the code has it. When the handshake of the
    first connection is rejected with a client response error: if the
    status is 403 and the token service call returns, there is exactly one
    token refresh and exactly one more connection, whose chunks and ending
    are those of [stream], so a second 403 there reaches the caller; if
    the status is not 403 the error reaches the caller after that single
    connection and without any refresh; if the status is 403 and the token
    service call raises, what it raises reaches the caller and there is no
    second connection. *)
Theorem stream_auth_refresh (self : SSMLCommunicate) (n : Net) (status : Z) :
  stream_was_called self = false ->
  connection_at n (opened n) = ConnectFails (ClientResponseError status) ->
  (status = 403 -> refresh_at n (refreshed n) = None ->
   stream self n
   = (set_stream_was_called self,
      mkNet (connection_at n) (refresh_at n) (S (S (opened n))) (S (refreshed n)),
      (stream_on (connection_at n (S (opened n)))).1,
      (stream_on (connection_at n (S (opened n)))).2)
   /\ (forall status2,
         connection_at n (S (opened n)) = ConnectFails (ClientResponseError status2) ->
         (stream self n).2 = Some (ClientResponseError status2)))
  /\ (status <> 403 ->
      stream self n
      = (set_stream_was_called self,
         mkNet (connection_at n) (refresh_at n) (S (opened n)) (refreshed n),
         [], Some (ClientResponseError status)))
  /\ (status = 403 ->
      forall e, refresh_at n (refreshed n) = Some e ->
      stream self n
      = (set_stream_was_called self,
         mkNet (connection_at n) (refresh_at n) (S (opened n)) (S (refreshed n)),
         [], Some e)).
Proof.
  intros Hfresh Hfirst. unfold stream. rewrite Hfresh.
  unfold __stream, handle_client_response_error. cbn [connection_at refresh_at opened refreshed].
  rewrite Hfirst. cbn [stream_on]. split; [|split].
  - intros -> Hrefresh. rewrite Hrefresh.
    rewrite decide_False by (intros H; by apply H).
    destruct (stream_on (connection_at n (S (opened n)))) as [ys2 r2] eqn:E2.
    split; [done|]. intros status2 Hsecond. rewrite Hsecond in E2.
    simpl in E2. by inversion E2.
  - intros Hne. by rewrite decide_True.
  - intros -> e Hrefresh. rewrite Hrefresh.
    by rewrite decide_False by (intros H; by apply H).
Qed.

Lemma stream_auth_refresh_witness :
  stream fresh_session
         (net_then_audio (ConnectFails (ClientResponseError 403)) (B "mp3"))
  = (set_stream_was_called fresh_session,
     mkNet (connection_at (net_then_audio (ConnectFails (ClientResponseError 403)) (B "mp3")))
           (fun _ => None) 2 1,
     [mkChunk (B "audio") (B "mp3")], None).
Proof.
  apply (stream_auth_refresh fresh_session
           (net_then_audio (ConnectFails (ClientResponseError 403)) (B "mp3")) 403);
    reflexivity.
Defined.

(** C5, refuted as stated: the handshake is rejected with status 403 and
    the token service call raises.  The session is not retried: one
    connection is opened, not two, and the caller gets what the token
    service call raised, although the second connection would have
    delivered audio. *)
Lemma auth_refresh_without_retry :
  let n := net_refresh_raises (ConnectFails (ClientResponseError 403)) (B "mp3")
             (OtherError "SkewAdjustmentError") in
  connection_at n 0 = ConnectFails (ClientResponseError 403)
  /\ stream_on (connection_at n 1) = ([mkChunk (B "audio") (B "mp3")], None)
  /\ opened (stream fresh_session n).1.1.2 = 1%nat
  /\ opened (stream fresh_session n).1.1.2 <> 2%nat
  /\ (stream fresh_session n).1.2 = []
  /\ (stream fresh_session n).2 = Some (OtherError "SkewAdjustmentError").
Proof. vm_compute. repeat split; congruence. Qed.








(** What [save] writes for chunks that are all audio chunks: their
    payloads, one after the other. *)
Lemma written_audio (ys : list TTSChunk) :
  Forall (fun m => chunk_type m = B "audio" /\ chunk_data m <> []) ys ->
  written ys = concat (map chunk_data ys).
Proof.
  unfold written. induction 1 as [|m ys [Hty _] _ IH]; [done|].
  rewrite filter_cons_True by done. cbn [map concat]. by rewrite IH.
Qed.

(** C10 (restart after a 403 in mid-stream), as the code has it. If the
    frame loop of the first connection raises a 403 client response error
    after yielding some chunks, and the token service call returns,
    [stream] opens a second connection and yields the chunks of the first
    followed by all the chunks of the second; after [save] the file holds
    the payloads of the chunks from before the 403, byte for byte,
    followed by the payloads of the chunks of the second connection, and
    when there was a chunk before the 403 those first bytes are not
    empty. *)
Theorem stream_restart_keeps_partial_output
  (self : SSMLCommunicate) (n : Net) (incoming : list ws_event) :
  stream_was_called self = false ->
  connection_at n (opened n) = Established incoming ->
  (frame_loop incoming false).2 = LoopRaised (ClientResponseError 403) ->
  refresh_at n (refreshed n) = None ->
  let ys1 := (frame_loop incoming false).1.1 in
  let second := stream_on (connection_at n (S (opened n))) in
  (stream self n).1.2 = ys1 ++ second.1
  /\ (stream self n).2 = second.2
  /\ opened (stream self n).1.1.2 = S (S (opened n))
  /\ (forall (audio_fname : bytes) (w : World),
        net w = n ->
        files (save self audio_fname w).1.2 !! audio_fname
        = Some (concat (map chunk_data ys1) ++ concat (map chunk_data second.1)))
  /\ (ys1 <> [] -> concat (map chunk_data ys1) <> []).
Proof.
  intros Hfresh Hfirst Hraise Hrefresh ys1 second.
  assert (stream self n
          = (set_stream_was_called self,
             mkNet (connection_at n) (refresh_at n) (S (S (opened n))) (S (refreshed n)),
             ys1 ++ second.1, second.2)) as Hstream.
  { unfold stream. rewrite Hfresh.
    unfold __stream, handle_client_response_error.
    cbn [connection_at refresh_at opened refreshed].
    rewrite Hfirst. cbn [stream_on]. subst ys1.
    destruct (frame_loop incoming false) as [[ys flag] ex]. simpl in Hraise.
    subst ex. rewrite decide_False by (intros H; by apply H).
    rewrite Hrefresh. subst second.
    by destruct (stream_on (connection_at n (S (opened n)))) as [ys2 r2]. }
  pose proof (frame_loop_yields incoming false) as Hys1. fold ys1 in Hys1.
  assert (Forall (fun m => chunk_type m = B "audio" /\ chunk_data m <> [])
                 second.1) as Hys2.
  { subst second. destruct (connection_at n (S (opened n))) as [e|e|inc];
      try by constructor.
    unfold stream_on. pose proof (frame_loop_yields inc false) as H.
    destruct (frame_loop inc false) as [[ys flag] ex]. simpl in H.
    destruct ex; [by destruct (negb flag)..|done]. }
  rewrite Hstream. split; [done|]. split; [done|]. split; [done|]. split.
  - intros audio_fname w Hw. unfold save. rewrite Hw, Hstream.
    cbn [fst snd files]. rewrite lookup_insert_eq, written_app.
    by rewrite !written_audio.
  - intros Hne. destruct ys1 as [|m ys]; [done|].
    inversion Hys1 as [|? ? [_ Hdata] _]; subst. simpl.
    intros [? _]%app_eq_nil. done.
Qed.

Lemma stream_restart_keeps_partial_output_witness :
  files (save fresh_session (B "out.mp3")
           (mkWorld ∅
              (net_then_audio
                 (Established [Recv (WsBinary (audio_frame (B "mp")));
                               RecvRaises (ClientResponseError 403)])
                 (B "mp3")))).1.2 !! B "out.mp3"
  = Some (B "mpmp3").
Proof.
  destruct (stream_restart_keeps_partial_output fresh_session
              (net_then_audio
                 (Established [Recv (WsBinary (audio_frame (B "mp")));
                               RecvRaises (ClientResponseError 403)])
                 (B "mp3"))
              [Recv (WsBinary (audio_frame (B "mp")));
               RecvRaises (ClientResponseError 403)])
    as (_ & _ & _ & Hfile & _); [reflexivity..|].
  apply (Hfile (B "out.mp3")). reflexivity.
Defined.

(** C10, refuted as stated: the frame loop raises a 403 after one audio
    chunk and the token service call raises.  [stream] does not start
    again: one connection is opened, the caller gets the one chunk and
    then what the token service call raised, and the file holds the
    payload of that chunk only. *)
Lemma mid_stream_403_without_restart :
  let n := net_refresh_raises
             (Established [Recv (WsBinary (audio_frame (B "mp")));
                           RecvRaises (ClientResponseError 403)])
             (B "mp3") (OtherError "SkewAdjustmentError") in
  (frame_loop [Recv (WsBinary (audio_frame (B "mp")));
               RecvRaises (ClientResponseError 403)] false)
  = ([mkChunk (B "audio") (B "mp")], true,
     LoopRaised (ClientResponseError 403))
  /\ stream_on (connection_at n 1) = ([mkChunk (B "audio") (B "mp3")], None)
  /\ (stream fresh_session n).1.2 = [mkChunk (B "audio") (B "mp")]
  /\ (stream fresh_session n).1.2
     <> [mkChunk (B "audio") (B "mp"); mkChunk (B "audio") (B "mp3")]
  /\ (stream fresh_session n).2 = Some (OtherError "SkewAdjustmentError")
  /\ opened (stream fresh_session n).1.1.2 = 1%nat
  /\ files (save fresh_session (B "out.mp3") (mkWorld ∅ n)).1.2 !! B "out.mp3"
     = Some (B "mp").
Proof. vm_compute. repeat split; congruence. Qed.

(** ** What [save] leaves in the file *)

Lemma stream_on_chunks c :
  Forall (fun m => chunk_type m = B "audio" /\ chunk_data m <> []) (stream_on c).1.
Proof.
  destruct c as [e|e|incoming]; try by constructor.
  unfold stream_on. pose proof (frame_loop_yields incoming false) as H.
  destruct (frame_loop incoming false) as [[ys flag] ex]. simpl in H.
  destruct ex; [by destruct (negb flag)..|done].
Qed.

(** A pass of [__stream] that ends without raising has yielded a chunk. *)
Lemma stream_on_returns c ys : stream_on c = (ys, None) -> ys <> [].
Proof.
  destruct c as [e|e|incoming]; [done|done|].
  unfold stream_on. pose proof (frame_loop_flag incoming false) as H.
  destruct (frame_loop incoming false) as [[ys' flag] ex]. simpl in H.
  destruct ex; [| |done].
  - destruct flag; [|done]. intros [= ->]. simpl in H.
    intros ->. by rewrite bool_decide_eq_true_2 in H.
  - destruct flag; [|done]. intros [= ->]. simpl in H.
    intros ->. by rewrite bool_decide_eq_true_2 in H.
Qed.

Lemma stream_chunks self n :
  Forall (fun m => chunk_type m = B "audio" /\ chunk_data m <> [])
         (stream self n).1.2.
Proof.
  unfold stream. destruct (stream_was_called self); [by constructor|].
  unfold __stream, handle_client_response_error.
  cbn [connection_at refresh_at opened refreshed].
  pose proof (stream_on_chunks (connection_at n (opened n))) as H1.
  destruct (stream_on (connection_at n (opened n))) as [ys1 r1]. simpl in H1.
  destruct r1 as [e|]; [|done]. destruct e; try done.
  case_decide; [done|]. destruct (refresh_at n (refreshed n)); [done|].
  pose proof (stream_on_chunks (connection_at n (S (opened n)))) as H2.
  destruct (stream_on (connection_at n (S (opened n)))) as [ys2 r2].
  simpl in *. by apply Forall_app.
Qed.

Lemma stream_returns self n :
  (stream self n).2 = None -> (stream self n).1.2 <> [].
Proof.
  unfold stream. destruct (stream_was_called self); [done|].
  unfold __stream, handle_client_response_error.
  cbn [connection_at refresh_at opened refreshed].
  pose proof (stream_on_returns (connection_at n (opened n))) as H1.
  destruct (stream_on (connection_at n (opened n))) as [ys1 r1].
  destruct r1 as [e|]; [|intros _; by apply H1].
  destruct e; try done.
  case_decide; [done|]. destruct (refresh_at n (refreshed n)); [done|].
  pose proof (stream_on_returns (connection_at n (S (opened n)))) as H2.
  destruct (stream_on (connection_at n (S (opened n)))) as [ys2 r2].
  simpl. intros ->. specialize (H2 ys2 eq_refl).
  intros [_ ?]%app_eq_nil. done.
Qed.

Lemma written_nonempty ys :
  ys <> [] ->
  Forall (fun m => chunk_type m = B "audio" /\ chunk_data m <> []) ys ->
  written ys <> [].
Proof.
  destruct ys as [|m ys]; [done|]. intros _ Hall.
  inversion Hall as [|? ? [Hty Hdata] _]; subst. unfold written.
  rewrite filter_cons_True by done. simpl.
  intros [? _]%app_eq_nil. done.
Qed.

(** When [save] returns without raising, the file holds audio. *)
Lemma save_returns self audio_fname w :
  (save self audio_fname w).2 = None ->
  exists content,
    files (save self audio_fname w).1.2 !! audio_fname = Some content
    /\ content <> [].
Proof.
  unfold save. pose proof (stream_returns self (net w)) as Hret.
  pose proof (stream_chunks self (net w)) as Hchunks.
  destruct (stream self (net w)) as [[[self' n'] ys] r]. simpl in *.
  intros ->. exists (written ys). rewrite lookup_insert_eq.
  split; [done|]. apply written_nonempty; [by apply Hret|done].
Qed.

(** [save] touches no other file. *)
Lemma save_frame self audio_fname w q :
  q <> audio_fname ->
  files (save self audio_fname w).1.2 !! q = files w !! q.
Proof.
  intros Hq. unfold save.
  destruct (stream self (net w)) as [[[self' n'] ys] r]. simpl.
  by rewrite lookup_insert_ne.
Qed.

End SessionFacts.

(* ===================================================================== *)
(** * The fallback cascade and the retries: properties                    *)
(* ===================================================================== *)

Module OrchestratorFacts.
Import Py SsmlClient TtsWorker.

Section Generic.
Context {W : Type}.
Variable synth : Tier -> bytes -> str -> str -> W -> W * result Z.
Variable sleep : Z -> W -> W.
Variable destination : bytes.
Variables text rate_str : str.

Abbreviation attempt := (_attempt_generate_audio synth destination text rate_str).
Abbreviation generate := (_generate_audio synth sleep destination text rate_str).

Lemma final_error_passed (e : exn) :
  is_exception e = false -> final_error (Some e) = e.
Proof. by destruct e. Qed.

(** The three rounds of [_generate_audio], written out. *)
Lemma generate_audio_rounds (w : W) :
  generate w =
  match attempt w with
  | (w1, tr1, inr size) => (w1, tr1, inr size)
  | (w1, tr1, inl e1) =>
      if negb (is_exception e1) then (w1, tr1, inl e1)
      else
      match attempt (sleep 1 w1) with
      | (w2, tr2, inr size) => (w2, tr1 ++ [Sleep 1] ++ tr2, inr size)
      | (w2, tr2, inl e2) =>
          if negb (is_exception e2)
          then (w2, tr1 ++ [Sleep 1] ++ tr2, inl e2)
          else
          match attempt (sleep 2 w2) with
          | (w3, tr3, inr size) =>
              (w3, tr1 ++ [Sleep 1] ++ tr2 ++ [Sleep 2] ++ tr3, inr size)
          | (w3, tr3, inl e3) =>
              (w3, tr1 ++ [Sleep 1] ++ tr2 ++ [Sleep 2] ++ tr3,
               inl (final_error (Some e3)))
          end
      end
  end.
Proof.
  unfold _generate_audio.
  change (seqZ 1 max_retries) with [1; 2; 3].
  cbn [retry_loop].
  destruct (attempt w) as [[w1 tr1] [e1|size1]]; [|done].
  destruct (is_exception e1); cbn [negb]; [|done].
  change (1 <? max_retries) with true. change (1 * 1) with 1. cbn iota.
  destruct (attempt (sleep 1 w1)) as [[w2 tr2] [e2|size2]]; [|done].
  destruct (is_exception e2); cbn [negb]; [|done].
  change (2 <? max_retries) with true. change (1 * 2) with 2. cbn iota.
  destruct (attempt (sleep 2 w2)) as [[w3 tr3] [e3|size3]]; [|done].
  destruct (is_exception e3) eqn:E3; cbn [negb].
  - change (3 <? max_retries) with false. cbn iota.
    by rewrite !app_nil_r.
  - by rewrite final_error_passed.
Qed.

(** The trace of a cascade is a beginning of the three tiers in order. *)
Lemma attempt_trace (w : W) :
  (attempt w).1.2 = [Attempt SilenceTagged]
  \/ (attempt w).1.2 = [Attempt SilenceTagged; Attempt BreakTagged]
  \/ (attempt w).1.2
     = [Attempt SilenceTagged; Attempt BreakTagged; Attempt PlainOrRawText].
Proof.
  unfold _attempt_generate_audio.
  destruct (synth SilenceTagged _ _ _ w) as [w1 [e1|s1]]; [|by left].
  destruct (is_exception e1); [|by left]. cbn [negb].
  destruct (synth BreakTagged _ _ _ w1) as [w2 [e2|s2]]; [|right; by left].
  destruct (is_exception e2); [|right; by left]. cbn [negb].
  destruct (synth PlainOrRawText _ _ _ w2) as [w3 r]. right. by right.
Qed.

(** A cascade that fails with an exception of class [Exception] has
    tried the three tiers, one after the other. *)
Lemma attempt_failure_trace (w w' : W) tr e :
  attempt w = (w', tr, inl e) -> is_exception e = true ->
  tr = [Attempt SilenceTagged; Attempt BreakTagged; Attempt PlainOrRawText].
Proof.
  unfold _attempt_generate_audio.
  destruct (synth SilenceTagged _ _ _ w) as [w1 [e1|s1]]; [|by inversion 1].
  destruct (is_exception e1) eqn:E1; cbn [negb];
    [|intros [= _ _ <-]; congruence].
  destruct (synth BreakTagged _ _ _ w1) as [w2 [e2|s2]]; [|by inversion 1].
  destruct (is_exception e2) eqn:E2; cbn [negb];
    [|intros [= _ _ <-]; congruence].
  destruct (synth PlainOrRawText _ _ _ w2) as [w3 r]. by inversion 1.
Qed.

(** C1 (fallback ordering), as the code has it. A session that fails on
    the two SSML tiers, with exceptions of class [Exception], and succeeds
    on the third is asked once per tier, in the order of the tiers;
    [_generate_audio] returns right after the third attempt, without
    sleeping: three attempts in all.  The retry loop wraps the whole
    cascade: a round that fails with an exception of class [Exception] has
    tried the three tiers, and only after such a round is the cascade run
    again, after a sleep of 1 second following the first round and of 2
    seconds following the second; there is no fourth round. *)
Theorem fallback_cascade_order (w w1 w2 w3 : W) (e1 e2 : exn) (size : Z) :
  synth SilenceTagged destination text rate_str w = (w1, inl e1) ->
  is_exception e1 = true ->
  synth BreakTagged destination text rate_str w1 = (w2, inl e2) ->
  is_exception e2 = true ->
  synth PlainOrRawText destination text rate_str w2 = (w3, inr size) ->
  generate w
  = (w3, [Attempt SilenceTagged; Attempt BreakTagged; Attempt PlainOrRawText],
     inr size)
  /\ length (filter is_attempt (generate w).1.2) = 3%nat
  /\ (forall v v' tr e,
        attempt v = (v', tr, inl e) -> is_exception e = true ->
        tr = [Attempt SilenceTagged; Attempt BreakTagged;
              Attempt PlainOrRawText])
  /\ (forall v,
        generate v =
        match attempt v with
        | (v1, tr1, inr size) => (v1, tr1, inr size)
        | (v1, tr1, inl x1) =>
            if negb (is_exception x1) then (v1, tr1, inl x1)
            else
            match attempt (sleep 1 v1) with
            | (v2, tr2, inr size) => (v2, tr1 ++ [Sleep 1] ++ tr2, inr size)
            | (v2, tr2, inl x2) =>
                if negb (is_exception x2)
                then (v2, tr1 ++ [Sleep 1] ++ tr2, inl x2)
                else
                match attempt (sleep 2 v2) with
                | (v3, tr3, inr size) =>
                    (v3, tr1 ++ [Sleep 1] ++ tr2 ++ [Sleep 2] ++ tr3, inr size)
                | (v3, tr3, inl x3) =>
                    (v3, tr1 ++ [Sleep 1] ++ tr2 ++ [Sleep 2] ++ tr3,
                     inl (final_error (Some x3)))
                end
            end
        end).
Proof.
  intros H1 He1 H2 He2 H3.
  assert (generate w
          = (w3, [Attempt SilenceTagged; Attempt BreakTagged;
                  Attempt PlainOrRawText], inr size)) as Hrun.
  { rewrite generate_audio_rounds. unfold _attempt_generate_audio.
    by rewrite H1, He1, H2, He2, H3. }
  split; [exact Hrun|]. split; [by rewrite Hrun|].
  split; [apply attempt_failure_trace|apply generate_audio_rounds].
Qed.

(** C7 (exhausted fallback), as the code has it. When the cascade has
    failed in all three rounds (in the first two with exceptions of class
    [Exception], the ones after which the loop goes on), [_generate_audio]
    raises after the two sleeps of 1 and 2 seconds; if the last error is
    [NoAudioReceived] it raises the [RuntimeError] with the list of likely
    causes and the last error as its cause, and for any other last error it
    raises that error itself. *)
Theorem exhausted_fallback_error
  (w w1 w2 w3 : W) (tr1 tr2 tr3 : list event) (e1 e2 last : exn) :
  attempt w = (w1, tr1, inl e1) -> is_exception e1 = true ->
  attempt (sleep 1 w1) = (w2, tr2, inl e2) -> is_exception e2 = true ->
  attempt (sleep 2 w2) = (w3, tr3, inl last) ->
  generate w
  = (w3, tr1 ++ [Sleep 1] ++ tr2 ++ [Sleep 2] ++ tr3,
     inl (final_error (Some last)))
  /\ (forall m, last = NoAudioReceived m ->
       final_error (Some last) = RuntimeError exhausted_message (Some last))
  /\ ((forall m, last <> NoAudioReceived m) -> final_error (Some last) = last).
Proof.
  intros H1 He1 H2 He2 H3. split; [|split].
  - rewrite generate_audio_rounds. by rewrite H1, He1, H2, He2, H3.
  - by intros m ->.
  - intros Hne. destruct last; try done. by destruct (Hne msg).
Qed.

(** A cascade that returns does so right after a synthesis that
    succeeded. *)
Lemma attempt_success_inv (w w' : W) tr size :
  attempt w = (w', tr, inr size) ->
  exists tier w0, synth tier destination text rate_str w0 = (w', inr size).
Proof.
  unfold _attempt_generate_audio.
  destruct (synth SilenceTagged _ _ _ w) as [w1 [e1|s1]] eqn:E1.
  2:{ intros [= <- _ <-]. eauto. }
  destruct (is_exception e1); cbn [negb]; [|done].
  destruct (synth BreakTagged _ _ _ w1) as [w2 [e2|s2]] eqn:E2.
  2:{ intros [= <- _ <-]. eauto. }
  destruct (is_exception e2); cbn [negb]; [|done].
  destruct (synth PlainOrRawText _ _ _ w2) as [w3 r] eqn:E3.
  intros [= <- _ ->]. eauto.
Qed.

Lemma generate_success_inv (w w' : W) tr size :
  generate w = (w', tr, inr size) ->
  exists tier w0, synth tier destination text rate_str w0 = (w', inr size).
Proof.
  rewrite generate_audio_rounds.
  destruct (attempt w) as [[w1 tr1] [e1|s1]] eqn:E1.
  2:{ intros [= <- _ <-]. by eapply attempt_success_inv. }
  destruct (is_exception e1); cbn [negb]; [|done].
  destruct (attempt (sleep 1 w1)) as [[w2 tr2] [e2|s2]] eqn:E2.
  2:{ intros [= <- _ <-]. by eapply attempt_success_inv. }
  destruct (is_exception e2); cbn [negb]; [|done].
  destruct (attempt (sleep 2 w2)) as [[w3 tr3] [e3|s3]] eqn:E3; [done|].
  intros [= <- _ <-]. by eapply attempt_success_inv.
Qed.

(** A relation between states that every synthesis and every sleep
    respects is respected by the whole of [_generate_audio]. *)
Section Preserved.
Variable R : W -> W -> Prop.
Hypothesis R_refl : forall w, R w w.
Hypothesis R_trans : forall w1 w2 w3, R w1 w2 -> R w2 w3 -> R w1 w3.
Hypothesis R_synth :
  forall tier w w' r, synth tier destination text rate_str w = (w', r) -> R w w'.
Hypothesis R_sleep : forall seconds w, R w (sleep seconds w).

Lemma attempt_preserves (w w' : W) tr r :
  attempt w = (w', tr, r) -> R w w'.
Proof.
  unfold _attempt_generate_audio.
  destruct (synth SilenceTagged _ _ _ w) as [w1 [e1|s1]] eqn:E1;
    apply R_synth in E1.
  2:{ by intros [= <- _ _]. }
  destruct (is_exception e1); cbn [negb]; [|by intros [= <- _ _]].
  destruct (synth BreakTagged _ _ _ w1) as [w2 [e2|s2]] eqn:E2;
    apply R_synth in E2.
  2:{ intros [= <- _ _]. eauto. }
  destruct (is_exception e2); cbn [negb]; [|intros [= <- _ _]; eauto].
  destruct (synth PlainOrRawText _ _ _ w2) as [w3 r3] eqn:E3;
    apply R_synth in E3.
  intros [= <- _ _]. eauto.
Qed.

Lemma generate_preserves (w w' : W) tr r :
  generate w = (w', tr, r) -> R w w'.
Proof.
  rewrite generate_audio_rounds.
  destruct (attempt w) as [[w1 tr1] [e1|s1]] eqn:E1.
  2:{ intros [= <- _ _]. by eapply attempt_preserves. }
  apply attempt_preserves in E1.
  destruct (is_exception e1); cbn [negb]; [|by intros [= <- _ _]].
  destruct (attempt (sleep 1 w1)) as [[w2 tr2] [e2|s2]] eqn:E2.
  2:{ intros [= <- _ _]. apply attempt_preserves in E2. eauto. }
  apply attempt_preserves in E2.
  destruct (is_exception e2); cbn [negb]; [|intros [= <- _ _]; eauto].
  destruct (attempt (sleep 2 w2)) as [[w3 tr3] [e3|s3]] eqn:E3;
    apply attempt_preserves in E3; intros [= <- _ _]; eauto 6.
Qed.

End Preserved.

End Generic.

(** C1, refuted as stated: a session that fails on the two SSML tiers and
    succeeds on the third is asked once per tier, three attempts and not
    seven, and the first tier is tried once and not three times. *)
Lemma seven_attempts_refuted :
  let run := _generate_audio (scripted_synth third_tier_only) scripted_sleep
               (B "out.mp3") (S_ "Hello.") (S_ "+0%") [] in
  (forall tier w, tier <> PlainOrRawText ->
     exists e, (scripted_synth third_tier_only tier (B "out.mp3") (S_ "Hello.")
                  (S_ "+0%") w).2 = inl e)
  /\ (forall w, exists size,
        (scripted_synth third_tier_only PlainOrRawText (B "out.mp3")
           (S_ "Hello.") (S_ "+0%") w).2 = inr size)
  /\ run.1.1 = [SilenceTagged; BreakTagged; PlainOrRawText]
  /\ run.2 = inr 1024
  /\ length (filter is_attempt run.1.2) <> 7%nat
  /\ run.1.1 <> [SilenceTagged; SilenceTagged; SilenceTagged;
                 BreakTagged; BreakTagged; BreakTagged; PlainOrRawText].
Proof.
  split; [|split].
  - intros [] w Hne; [by eexists|by eexists|done].
  - intros w. by eexists.
  - vm_compute. repeat split; congruence.
Qed.

Lemma fallback_cascade_order_witness :
  _generate_audio (scripted_synth third_tier_only) scripted_sleep
    (B "out.mp3") (S_ "Hello.") (S_ "+0%") []
  = ([SilenceTagged; BreakTagged; PlainOrRawText],
     [Attempt SilenceTagged; Attempt BreakTagged; Attempt PlainOrRawText],
     inr 1024).
Proof.
  apply (fallback_cascade_order (scripted_synth third_tier_only) scripted_sleep
           (B "out.mp3") (S_ "Hello.") (S_ "+0%")
           [] [SilenceTagged] [SilenceTagged; BreakTagged]
           [SilenceTagged; BreakTagged; PlainOrRawText]
           (NoAudioReceived no_audio_message) (NoAudioReceived no_audio_message)
           1024); reflexivity.
Defined.

(** C7, refuted as stated: when every attempt times out, all tiers and
    retries are used up (nine attempts) and what is raised is the bare
    timeout, not the error that lists the likely causes. *)
Lemma exhausted_without_user_facing_error :
  let run := _generate_audio (scripted_synth always_timeout) scripted_sleep
               (B "out.mp3") (S_ "Hello.") (S_ "+0%") [] in
  length run.1.1 = 9%nat
  /\ run.2 = inl TimeoutError
  /\ (forall msg cause, run.2 <> inl (RuntimeError msg cause)).
Proof. vm_compute. repeat split; congruence. Qed.

Lemma exhausted_fallback_error_witness :
  _generate_audio (scripted_synth never_audio) scripted_sleep
    (B "out.mp3") (S_ "Hello.") (S_ "+0%") []
  = ([SilenceTagged; BreakTagged; PlainOrRawText;
      SilenceTagged; BreakTagged; PlainOrRawText;
      SilenceTagged; BreakTagged; PlainOrRawText],
     [Attempt SilenceTagged; Attempt BreakTagged; Attempt PlainOrRawText;
      Sleep 1;
      Attempt SilenceTagged; Attempt BreakTagged; Attempt PlainOrRawText;
      Sleep 2;
      Attempt SilenceTagged; Attempt BreakTagged; Attempt PlainOrRawText],
     inl (RuntimeError exhausted_message
            (Some (NoAudioReceived no_audio_message)))).
Proof.
  apply (exhausted_fallback_error (scripted_synth never_audio) scripted_sleep
           (B "out.mp3") (S_ "Hello.") (S_ "+0%")
           []
           [SilenceTagged; BreakTagged; PlainOrRawText]
           [SilenceTagged; BreakTagged; PlainOrRawText;
            SilenceTagged; BreakTagged; PlainOrRawText]
           [SilenceTagged; BreakTagged; PlainOrRawText;
            SilenceTagged; BreakTagged; PlainOrRawText;
            SilenceTagged; BreakTagged; PlainOrRawText]
           [Attempt SilenceTagged; Attempt BreakTagged; Attempt PlainOrRawText]
           [Attempt SilenceTagged; Attempt BreakTagged; Attempt PlainOrRawText]
           [Attempt SilenceTagged; Attempt BreakTagged; Attempt PlainOrRawText]
           (NoAudioReceived no_audio_message) (NoAudioReceived no_audio_message)
           (NoAudioReceived no_audio_message)); reflexivity.
Defined.

End OrchestratorFacts.

(* ===================================================================== *)
(** * The chunker: properties                                             *)
(* ===================================================================== *)

Module ChunkerFacts.
Import Py PyFacts TtsWorker.

Lemma rfind_lower (w pat : str) : -1 <= rfind w pat.
Proof. destruct (rfind_spec w pat) as [[-> _]|[? _]]; lia. Qed.

(** [rfind] in the words of [occurs_at]. *)
Lemma rfind_occurs (w pat : str) :
  (rfind w pat = -1 /\ forall j, ~ occurs_at pat w j)
  \/ (occurs_at pat w (rfind w pat)
      /\ forall j, occurs_at pat w j -> j <= rfind w pat).
Proof.
  destruct (rfind_spec w pat) as [[Hr Hnone]|(Hr & Hocc & Hmax)].
  - left. split; [done|]. intros j [Hj Hs].
    rewrite Hnone in Hs; [done|]. unfold len in Hj. lia.
  - right. split; [done|]. intros j [Hj Hs].
    specialize (Hmax (Z.to_nat j)). unfold len in Hj.
    specialize (Hmax ltac:(lia) Hs). lia.
Qed.

Section Window.
Variable w : str.

Local Abbreviation pick := (pick_terminator w).

(** The loop over the terminators keeps the largest [idx + 1]. *)
Lemma pick_fold_spec (pats : list str) (acc : Z) :
  acc = -1 \/ 1 <= acc ->
  let k := fold_left pick pats acc in
  (k = -1 /\ acc = -1 /\ forall t, t ∈ pats -> rfind w t = -1)
  \/ (1 <= k /\ acc <= k
      /\ (k = acc \/ exists t, t ∈ pats /\ rfind w t = k - 1)
      /\ forall t, t ∈ pats -> rfind w t + 1 <= k).
Proof.
  revert acc. induction pats as [|t pats IH]; intros acc Hacc; simpl.
  - destruct Hacc as [->|Hacc].
    + left. repeat split. intros t Ht. by apply elem_of_nil in Ht.
    + right. split; [done|]. split; [lia|]. split; [by left|].
      intros t Ht. by apply elem_of_nil in Ht.
  - pose proof (rfind_lower w t) as Hlow.
    assert (pick acc t = if rfind w t =? -1 then acc
                         else Z.max acc (rfind w t + 1)) as -> by done.
    destruct (Z.eqb_spec (rfind w t) (-1)) as [Hr|Hr].
    + destruct (IH acc Hacc) as [(Hk & Ha & Hall)|(Hk & Ha & Hex & Hall)].
      * left. split; [done|]. split; [done|].
        intros t' [->|Ht']%elem_of_cons; [done|by apply Hall].
      * right. split; [done|]. split; [done|]. split.
        -- destruct Hex as [Hex|(t' & Ht' & Hex)]; [by left|].
           right. exists t'. split; [by apply elem_of_cons; right|done].
        -- intros t' [->|Ht']%elem_of_cons; [lia|by apply Hall].
    + assert (Z.max acc (rfind w t + 1) = -1 \/ 1 <= Z.max acc (rfind w t + 1))
        as Hacc' by lia.
      destruct (IH _ Hacc') as [(Hk & Ha & Hall)|(Hk & Ha & Hex & Hall)]; [lia|].
      right. split; [done|]. split; [lia|]. split.
      * destruct Hex as [Hex|(t' & Ht' & Hex)].
        -- destruct (Z.max_spec acc (rfind w t + 1)) as [[_ Hm]|[_ Hm]].
           ++ right. exists t. split; [by apply elem_of_cons; left|lia].
           ++ left. lia.
        -- right. exists t'. split; [by apply elem_of_cons; right|done].
      * intros t' [->|Ht']%elem_of_cons; [lia|by apply Hall].
Qed.

Lemma sentence_split_spec :
  let k := sentence_split w in
  (k = -1 /\ forall t j, t ∈ terminators -> ~ occurs_at t w j)
  \/ (1 <= k
      /\ (exists t, t ∈ terminators /\ occurs_at t w (k - 1))
      /\ forall t j, t ∈ terminators -> occurs_at t w j -> j + 1 <= k).
Proof.
  destruct (pick_fold_spec terminators (-1) ltac:(by left))
    as [(Hk & _ & Hall)|(Hk & _ & Hex & Hall)].
  - left. split; [exact Hk|]. intros t j Ht.
    destruct (rfind_occurs w t) as [[_ Hno]|[Hocc _]]; [apply Hno|].
    specialize (Hall t Ht). destruct Hocc as [? _]. lia.
  - right. split; [exact Hk|]. split.
    + destruct Hex as [Hex|(t & Ht & Hex)].
      { unfold sentence_split in *. lia. }
      exists t. split; [done|].
      destruct (rfind_occurs w t) as [[Hr _]|[Hocc _]].
      * unfold sentence_split in *. lia.
      * unfold sentence_split. by rewrite <- Hex.
    + intros t j Ht Hj. specialize (Hall t Ht).
      destruct (rfind_occurs w t) as [[_ Hno]|[_ Hmax]]; [by destruct (Hno j)|].
      specialize (Hmax j Hj). unfold sentence_split. lia.
Qed.

End Window.

(** How the cut position is chosen. *)
Lemma split_index_spec (text : str) (max_chars : Z) :
  spec_preferred_cut (slice_to text max_chars) max_chars
    (split_index text max_chars).
Proof.
  unfold split_index. set (w := slice_to text max_chars).
  destruct (sentence_split_spec w) as [[Hk Hno]|(Hk & Hex & Hmax)].
  - rewrite Hk. simpl.
    destruct (rfind_occurs w [NL]) as [[Hnl Hnonl]|[Hnl Hmaxnl]].
    + rewrite Hnl. simpl.
      destruct (rfind_occurs w [SP]) as [[Hsp Hnosp]|[Hsp Hmaxsp]].
      * rewrite Hsp. simpl. do 3 right. done.
      * pose proof Hsp as [[Hsp0 _] _].
        destruct (Z.eqb_spec (rfind w [SP]) (-1)); [lia|].
        do 2 right. left. done.
    + pose proof Hnl as [[Hnl0 _] _].
      destruct (Z.eqb_spec (rfind w [NL]) (-1)); [lia|].
      destruct (Z.eqb_spec (rfind w [NL]) (-1)); [lia|].
      right. left. done.
  - destruct (Z.eqb_spec (sentence_split w) (-1)); [lia|].
    destruct (Z.eqb_spec (sentence_split w) (-1)); [lia|].
    destruct (Z.eqb_spec (sentence_split w) (-1)); [lia|].
    left. done.
Qed.

Lemma terminator_length t : t ∈ terminators -> length t = 2%nat.
Proof.
  unfold terminators. rewrite !elem_of_cons, elem_of_nil.
  intros [->|[->|[->|[->|[->|[->|[]]]]]]]; reflexivity.
Qed.

Lemma occurs_at_fits (pat w : str) j :
  occurs_at pat w j -> 0 <= j /\ j + len pat <= len w.
Proof.
  intros [Hj Hs]. split; [lia|]. apply startswith_length in Hs.
  rewrite length_drop in Hs. unfold len in *. lia.
Qed.

Lemma occurs_at_zero_head (c : N) (text : str) (n : nat) :
  occurs_at [c] (take n text) 0 -> exists r, text = c :: r.
Proof.
  intros [_ Hs]. simpl in Hs.
  destruct text as [|x text]; [by rewrite take_nil in Hs|].
  destruct n as [|n]; [done|]. simpl in Hs.
  apply andb_true_iff in Hs as [Hx _]. apply bool_decide_eq_true in Hx.
  subst x. by eexists.
Qed.

Section Cut.
Variable max_chars : Z.
Hypothesis max_chars_pos : 0 < max_chars.

Lemma window_length (text : str) : len (slice_to text max_chars) <= max_chars.
Proof.
  rewrite slice_to_nonneg by lia. unfold len. rewrite length_take. lia.
Qed.

(** The cut lies inside the window, and it lies at position 0 only on a
    newline or a space. *)
Lemma split_index_bounds (text : str) :
  0 <= split_index text max_chars <= max_chars
  /\ (split_index text max_chars = 0 ->
      exists c r, text = c :: r /\ isspace c = true).
Proof.
  pose proof (window_length text) as Hw.
  destruct (split_index_spec text max_chars)
    as [[(t & Ht & Hocc) _]|[(_ & Hocc & _)|[(_ & _ & Hocc & _)|(_ & _ & _ & Hk)]]].
  - apply occurs_at_fits in Hocc as [H0 Hfit].
    unfold len in Hfit at 1. rewrite (terminator_length t Ht) in Hfit.
    split; [lia|]. intros Hz. lia.
  - pose proof (occurs_at_fits _ _ _ Hocc) as [H0 Hfit].
    unfold len in Hfit at 1. simpl in Hfit. split; [lia|].
    intros Hz. rewrite Hz in Hocc. rewrite slice_to_nonneg in Hocc by lia.
    apply occurs_at_zero_head in Hocc as [r ->]. by exists NL, r.
  - pose proof (occurs_at_fits _ _ _ Hocc) as [H0 Hfit].
    unfold len in Hfit at 1. simpl in Hfit. split; [lia|].
    intros Hz. rewrite Hz in Hocc. rewrite slice_to_nonneg in Hocc by lia.
    apply occurs_at_zero_head in Hocc as [r ->]. by exists SP, r.
  - rewrite Hk. split; [lia|]. intros Hz. lia.
Qed.

(** Every pass through the loop makes the text shorter. *)
Lemma rest_shorter (text : str) :
  max_chars < len text ->
  (length (rest_after_cut text max_chars) < length text)%nat.
Proof.
  intros Hlen. unfold rest_after_cut.
  destruct (split_index_bounds text) as [Hk Hzero].
  destruct (Z.eq_dec (split_index text max_chars) 0) as [Hz|Hnz].
  - destruct (Hzero Hz) as (c & r & -> & Hc). rewrite Hz.
    rewrite slice_from_nonneg by lia. simpl drop. by apply strip_space_shorter.
  - rewrite slice_from_nonneg by lia.
    eapply Nat.le_lt_trans; [apply strip_length|].
    rewrite length_drop. unfold len in Hlen. lia.
Qed.

Lemma chunk_bounded (text : str) : len (chunk_before_cut text max_chars) <= max_chars.
Proof.
  unfold chunk_before_cut. destruct (split_index_bounds text) as [Hk _].
  rewrite slice_to_nonneg by lia. unfold len.
  pose proof (strip_length (take (Z.to_nat (split_index text max_chars)) text)) as Hs.
  rewrite length_take in Hs. lia.
Qed.

(** A cut loses nothing but white space. *)
Lemma cut_filter (text : str) :
  filter nonspace (chunk_before_cut text max_chars)
  ++ filter nonspace (rest_after_cut text max_chars)
  = filter nonspace text.
Proof.
  unfold chunk_before_cut, rest_after_cut.
  by rewrite !strip_filter, <- filter_app, slice_to_from.
Qed.

Lemma chunk_nonempty (c : N) (r : str) :
  isspace c = false -> chunk_before_cut (c :: r) max_chars <> [].
Proof.
  intros Hc. unfold chunk_before_cut.
  destruct (split_index_bounds (c :: r)) as [Hk Hzero].
  rewrite slice_to_nonneg by lia. apply strip_take_nonspace; [done|].
  destruct (Z.eq_dec (split_index (c :: r) max_chars) 0) as [Hz|Hnz]; [|lia].
  destruct (Hzero Hz) as (c' & r' & [= <- <-] & Hc'). congruence.
Qed.

(** The accumulator only collects. *)
Lemma chunk_loop_acc (fuel : nat) (text : str) (chunks : list str) :
  chunk_loop fuel text max_chars chunks
  = (chunks ++.) <$> chunk_loop fuel text max_chars [].
Proof.
  revert text chunks. induction fuel as [|fuel IH]; intros text chunks.
  - simpl. destruct (len text >? max_chars); [done|].
    simpl. case_decide; by rewrite ?app_nil_r.
  - cbn [chunk_loop]. destruct (len text >? max_chars).
    + rewrite IH. rewrite (IH _ ([] ++ _)). rewrite <- option_fmap_compose.
      apply option_fmap_ext. intros l. simpl. by rewrite <- app_assoc.
    + simpl. case_decide; by rewrite ?app_nil_r.
Qed.

(** One unit of fuel per character is enough, and more changes nothing. *)
Lemma chunk_loop_fuel (fuel1 fuel2 : nat) (text : str) (chunks : list str) :
  (length text <= fuel1)%nat -> (length text <= fuel2)%nat ->
  chunk_loop fuel1 text max_chars chunks = chunk_loop fuel2 text max_chars chunks.
Proof.
  revert fuel2 text chunks.
  induction fuel1 as [|fuel1 IH]; intros fuel2 text chunks H1 H2.
  - destruct text; [|simpl in H1; lia].
    destruct fuel2; simpl;
      (destruct (Z.gtb_spec (len (@nil N)) max_chars) as [Hgt|_];
       [unfold len in Hgt; simpl in Hgt; lia|done]).
  - destruct (Z.gtb_spec (len text) max_chars) as [Hgt|Hle].
    + pose proof (rest_shorter text Hgt) as Hshort.
      unfold rest_after_cut in Hshort.
      destruct fuel2 as [|fuel2]; [unfold len in Hgt; lia|].
      cbn [chunk_loop].
      destruct (Z.gtb_spec (len text) max_chars); [|lia].
      apply IH; lia.
    + destruct fuel2; cbn [chunk_loop];
        by destruct (Z.gtb_spec (len text) max_chars); [lia|].
Qed.

(** [_chunk_text] on a text that is too long: the first chunk, then the
    chunks of the rest. *)
Lemma chunk_text_unfold (text : str) :
  max_chars < len text ->
  _chunk_text text max_chars
  = (chunk_before_cut text max_chars ::.)
    <$> (if decide (rest_after_cut text max_chars = []) then Some []
         else _chunk_text (rest_after_cut text max_chars) max_chars).
Proof.
  intros Hgt. pose proof (rest_shorter text Hgt) as Hshort.
  unfold _chunk_text at 1.
  destruct (Z.leb_spec (len text) max_chars) as [|_]; [lia|].
  destruct (length text) as [|fuel] eqn:Hfuel; [unfold len in Hgt; lia|].
  cbn [chunk_loop]. destruct (Z.gtb_spec (len text) max_chars) as [_|]; [|lia].
  fold (rest_after_cut text max_chars). fold (chunk_before_cut text max_chars).
  rewrite chunk_loop_acc. simpl app.
  set (rest := rest_after_cut text max_chars) in *.
  case_decide as Hrest.
  - rewrite Hrest. destruct fuel; simpl;
      (destruct (Z.gtb_spec (len (@nil N)) max_chars) as [Hgt'|_];
       [unfold len in Hgt'; simpl in Hgt'; lia|done]).
  - unfold _chunk_text. destruct (Z.leb_spec (len rest) max_chars) as [Hle|Hgt'].
    + destruct fuel; cbn [chunk_loop];
        (destruct (Z.gtb_spec (len rest) max_chars); [lia|]);
        by rewrite decide_True.
    + by rewrite (chunk_loop_fuel fuel (length rest)) by lia.
Qed.

(** What holds of the chunks of a text, by induction on its length. *)
Lemma chunk_text_core (n : nat) (text : str) :
  (length text <= n)%nat ->
  exists chunks,
    _chunk_text text max_chars = Some chunks
    /\ Forall (fun c => len c <= max_chars) chunks
    /\ filter nonspace (concat chunks) = filter nonspace text
    /\ ((exists c r, text = c :: r /\ isspace c = false) ->
        Forall (fun c => c <> []) chunks)
    /\ Forall (fun c => c <> []) (tail chunks).
Proof.
  revert text. induction n as [|n IH]; intros text Hn.
  - destruct text; [|simpl in Hn; lia]. exists [[]].
    unfold _chunk_text. destruct (Z.leb_spec (len (@nil N)) max_chars) as [_|Hgt];
      [|unfold len in Hgt; simpl in Hgt; lia].
    split; [done|]. split; [repeat constructor; unfold len; simpl; lia|].
    split; [done|]. split; [|by constructor].
    by intros (c & r & ? & _).
  - destruct (Z.leb_spec (len text) max_chars) as [Hle|Hgt].
    + exists [text]. unfold _chunk_text.
      destruct (Z.leb_spec (len text) max_chars) as [_|]; [|lia].
      split; [done|]. split; [by repeat constructor|].
      split; [simpl; by rewrite app_nil_r|]. split; [|by constructor].
      intros (c & r & -> & _). by repeat constructor.
    + rewrite (chunk_text_unfold text Hgt).
      pose proof (rest_shorter text Hgt) as Hshort.
      pose proof (chunk_bounded text) as Hbound.
      pose proof (cut_filter text) as Hfilter.
      set (first := chunk_before_cut text max_chars) in *.
      set (rest := rest_after_cut text max_chars) in *.
      assert ((exists c r, text = c :: r /\ isspace c = false) -> first <> [])
        as Hfirst.
      { intros (c & r & -> & Hc). by apply chunk_nonempty. }
      case_decide as Hrest.
      * exists [first]. split; [done|]. split; [by repeat constructor|].
        split; [|split; [|by constructor]].
        -- rewrite Hrest in Hfilter. simpl in *.
           by rewrite !app_nil_r in *.
        -- intros Htext. repeat constructor. by apply Hfirst.
      * destruct (IH rest ltac:(lia)) as (chunks & -> & Hlen & Hflt & Hne & _).
        assert (Forall (fun c => c <> []) chunks) as Hall.
        { apply Hne. destruct rest as [|c r] eqn:E; [done|].
          exists c, r. split; [done|]. subst rest.
          unfold rest_after_cut in E. by apply strip_head in E. }
        exists (first :: chunks). split; [done|]. split; [by constructor|].
        split; [|split; [|done]].
        -- simpl. by rewrite filter_app, Hflt.
        -- intros Htext. constructor; [by apply Hfirst|done].
Qed.

Lemma chunk_text_not_nil (text : str) : _chunk_text text max_chars <> Some [].
Proof.
  destruct (Z.leb_spec (len text) max_chars) as [Hle|Hgt].
  - unfold _chunk_text. by destruct (Z.leb_spec (len text) max_chars); [|lia].
  - rewrite (chunk_text_unfold text Hgt).
    by destruct (if decide (rest_after_cut text max_chars = []) then _ else _).
Qed.

End Cut.

(** Joining with single spaces adds white space only. *)
Lemma join_space_filter (chunks : list str) :
  filter nonspace (join [SP] chunks) = filter nonspace (concat chunks).
Proof.
  induction chunks as [|c chunks IH]; [done|].
  destruct chunks as [|c' chunks]; [simpl; by rewrite app_nil_r|].
  change (join [SP] (c :: c' :: chunks))
    with (c ++ [SP] ++ join [SP] (c' :: chunks)).
  change (concat (c :: c' :: chunks)) with (c ++ concat (c' :: chunks)).
  rewrite !filter_app, IH. f_equal.
Qed.

(** X23. For every text and every positive
    [max_chars], [_chunk_text] returns; no chunk is longer than
    [max_chars] (an unbroken token is cut at [max_chars]); the chunks,
    concatenated or joined with single spaces, have exactly the non-space
    characters of the text, in order; every chunk after the first is
    non-empty, and the first is non-empty as well when the text begins
    with a character that is not white space.  When the text is longer
    than [max_chars], the first cut follows the preference order:
    sentence terminator, newline, space, hard cut; and the remaining
    chunks are those of the stripped rest. *)
Theorem chunk_text_properties (text : str) (max_chars : Z) :
  0 < max_chars ->
  (exists chunks,
      _chunk_text text max_chars = Some chunks
      /\ Forall (fun c => len c <= max_chars) chunks
      /\ filter nonspace (concat chunks) = filter nonspace text
      /\ filter nonspace (join [SP] chunks) = filter nonspace text
      /\ ((exists c r, text = c :: r /\ isspace c = false) ->
          Forall (fun c => c <> []) chunks)
      /\ Forall (fun c => c <> []) (tail chunks))
  /\ (max_chars < len text ->
      spec_preferred_cut (slice_to text max_chars) max_chars
        (split_index text max_chars)
      /\ _chunk_text text max_chars
         = (chunk_before_cut text max_chars ::.)
           <$> (if decide (rest_after_cut text max_chars = []) then Some []
                else _chunk_text (rest_after_cut text max_chars) max_chars)).
Proof.
  intros Hpos. split.
  - destruct (chunk_text_core max_chars Hpos (length text) text ltac:(lia))
      as (chunks & Heq & Hlen & Hflt & Hne & Htail).
    exists chunks. split; [done|]. split; [done|]. split; [done|].
    split; [by rewrite join_space_filter|]. done.
  - intros Hgt. split; [apply split_index_spec|by apply chunk_text_unfold].
Qed.

Lemma chunk_text_properties_witness :
  exists chunks,
    _chunk_text (S_ "Hi. You! ok go") 6 = Some chunks
    /\ Forall (fun c => len c <= 6) chunks
    /\ filter nonspace (concat chunks) = filter nonspace (S_ "Hi. You! ok go")
    /\ filter nonspace (join [SP] chunks) = filter nonspace (S_ "Hi. You! ok go")
    /\ ((exists c r, S_ "Hi. You! ok go" = c :: r /\ isspace c = false) ->
        Forall (fun c => c <> []) chunks)
    /\ Forall (fun c => c <> []) (tail chunks).
Proof.
  apply (chunk_text_properties (S_ "Hi. You! ok go") 6). lia.
Defined.

(** An empty first chunk on small inputs: a text that begins with a space
    in front of a token longer than [max_chars]; so do the empty text and
    a text of white space only, which the caller keeps away. *)
Lemma empty_chunk_produced :
  _chunk_text (S_ " abcd") 3 = Some [[]; S_ "abc"; S_ "d"]
  /\ _chunk_text [] 3 = Some [[]]
  /\ _chunk_text (S_ "   ") 2 = Some [[]]
  /\ ~ (forall text max_chars chunks,
          0 < max_chars -> _chunk_text text max_chars = Some chunks ->
          Forall (fun c => c <> []) chunks).
Proof.
  split; [by vm_compute|]. split; [by vm_compute|]. split; [by vm_compute|].
  intros H. specialize (H (S_ " abcd") 3 [[]; S_ "abc"; S_ "d"]).
  assert (Forall (fun c : str => c <> []) [[]; S_ "abc"; S_ "d"]) as Hall.
  { apply H; [lia|by vm_compute]. }
  by inversion Hall.
Qed.

(** C3 (chunker), at an input the worker can receive: a newline followed
    by 5001 letters, with the [max_chars] of 5000 that
    [_generate_single_file] passes.  The text is neither empty nor white
    space only, so it gets past the guard of [_generate_single_file]; the
    only cut point in the first 5000 characters is the newline at position
    0, so the first chunk is the empty string.  The claim says that no
    chunk is empty. *)
Theorem leading_newline_gives_empty_chunk :
  let text := [NL] ++ replicate (Z.to_nat 5001) 97%N in
  text <> [] /\ strip text <> []
  /\ _chunk_text text 5000 = Some [[]; replicate (Z.to_nat 5000) 97%N; [97%N]]
  /\ ~ Forall (fun c : str => c <> []) [[]; replicate (Z.to_nat 5000) 97%N; [97%N]].
Proof.
  split; [done|]. split; [by vm_compute|]. split; [by vm_compute|].
  intros Hall. by inversion Hall.
Qed.

End ChunkerFacts.

(* ===================================================================== *)
(** * Generating one file: properties                                     *)
(* ===================================================================== *)

Module WorkerFacts.
Import Py PyFacts SsmlClient SessionFacts TtsWorker OrchestratorFacts ChunkerFacts.

Lemma same_elsewhere_refl p w : same_elsewhere p w w.
Proof. by intros q _. Qed.

Lemma same_elsewhere_trans p w1 w2 w3 :
  same_elsewhere p w1 w2 -> same_elsewhere p w2 w3 -> same_elsewhere p w1 w3.
Proof. intros H12 H23 q Hq. by rewrite H23, H12. Qed.

Lemma holds_audio_elsewhere p q w w' :
  same_elsewhere p w w' -> q <> p -> holds_audio q w -> holds_audio q w'.
Proof. intros Hsame Hq (content & Hc & Hne). exists content. by rewrite Hsame. Qed.

Lemma unlink_other p q w :
  q <> p -> files (unlink_if_exists p w) !! q = files w !! q.
Proof. intros Hq. simpl. by rewrite lookup_delete_ne. Qed.

Lemma cleanup_other temp_files q w :
  q ∉ temp_files -> files (cleanup temp_files w) !! q = files w !! q.
Proof.
  unfold cleanup. revert w. induction temp_files as [|f fs IH]; intros w Hq; [done|].
  apply not_elem_of_cons in Hq as [Hqf Hq]. simpl.
  rewrite IH by done. by apply unlink_other.
Qed.

Section Worker.
Variable voice_id : str.
Variable rate_str : str.
Variable use_stress : bool.
Variable gemini_enabled thinking_mode : bool.
Variable session_output_format : bytes.
Variable _build_ssml : str -> str -> bool -> bool -> bytes.
Variable communicate_save : str -> bytes -> World -> World * option exn.
Variable prepare_text_for_tts : str -> bool -> bool -> World -> World * result str.
Variable _temp_file_name : World -> World * result bytes.
Variable with_suffix_txt : bytes -> bytes.
Variable manifest : list bytes -> bytes.
Variable ffmpeg : list bytes -> bytes -> bytes -> World -> World * result unit.

Local Abbreviation synth :=
  (worker_synth voice_id use_stress session_output_format _build_ssml
     communicate_save).
Local Abbreviation generate :=
  (worker_generate_audio voice_id rate_str use_stress session_output_format
     _build_ssml communicate_save).
Local Abbreviation merge := (_merge_audio_files with_suffix_txt manifest ffmpeg).
Local Abbreviation chunks_loop :=
  (generate_chunks voice_id rate_str use_stress session_output_format
     _build_ssml communicate_save _temp_file_name).
Local Abbreviation single_file :=
  (_generate_single_file voice_id rate_str use_stress gemini_enabled
     thinking_mode session_output_format _build_ssml communicate_save
     prepare_text_for_tts _temp_file_name with_suffix_txt manifest ffmpeg).

(** What is taken for granted about the collaborators:
    - when the plain-text [save] returns, the file holds audio, and it
      touches no other file;
    - [mkstemp] makes a new, empty file;
    - when [ffmpeg] exits with status 0 on a non-empty list of files that
      hold audio, the output holds audio. *)
Hypothesis communicate_save_ok :
  forall input p w w', communicate_save input p w = (w', None) -> holds_audio p w'.
Hypothesis communicate_save_frame :
  forall input p w w' r, communicate_save input p w = (w', r) -> same_elsewhere p w w'.
Hypothesis temp_file_new :
  forall w w' p, _temp_file_name w = (w', inr p) ->
                 files w !! p = None /\ files w' = <[p := []]> (files w).
Hypothesis ffmpeg_ok :
  forall inputs list_file out w w',
    ffmpeg inputs list_file out w = (w', inr tt) ->
    inputs <> [] -> (forall p, p ∈ inputs -> holds_audio p w) ->
    holds_audio out w'.

Lemma synth_ok tier destination text rate w w' size :
  synth tier destination text rate w = (w', inr size) -> holds_audio destination w'.
Proof.
  destruct tier; simpl.
  1,2: unfold ssml_attempt;
    match goal with |- context [save ?c ?d ?w] =>
      pose proof (save_returns c d w) as Hret;
      destruct (save c d w) as [[self' w1] [e|]] end;
    [done|]; simpl in Hret; intros [= <- _]; by apply Hret.
  unfold plain_attempt.
  destruct (communicate_save _ destination w) as [w1 [e|]] eqn:E; [done|].
  intros [= <- _]. by eapply communicate_save_ok.
Qed.

Lemma synth_frame tier destination text rate w w' r :
  synth tier destination text rate w = (w', r) -> same_elsewhere destination w w'.
Proof.
  destruct tier; simpl.
  1,2: unfold ssml_attempt;
    match goal with |- context [save ?c ?d ?w] =>
      pose proof (fun q => save_frame c d w q) as Hframe;
      destruct (save c d w) as [[self' w1] [e|]] end;
    simpl in Hframe; intros [= <- _]; intros q Hq; by apply Hframe.
  unfold plain_attempt.
  destruct (communicate_save _ destination w) as [w1 [e|]] eqn:E;
    intros [= <- _]; by eapply communicate_save_frame.
Qed.

(** When [_generate_audio] returns, its destination holds audio. *)
Lemma generate_ok destination text w w' tr size :
  generate destination text w = (w', tr, inr size) -> holds_audio destination w'.
Proof.
  intros H. apply generate_success_inv in H as (tier & w0 & H).
  by eapply synth_ok.
Qed.

(** [_generate_audio] touches no file but its destination. *)
Lemma generate_frame destination text w w' tr r :
  generate destination text w = (w', tr, r) -> same_elsewhere destination w w'.
Proof.
  apply (generate_preserves _ _ _ _ _ (same_elsewhere destination)).
  - apply same_elsewhere_refl.
  - apply same_elsewhere_trans.
  - intros tier w1 w2 r'. apply synth_frame.
  - intros seconds w1. apply same_elsewhere_refl.
Qed.

Variable final_destination : bytes.

(** The names [mkstemp] hands out are neither the destination nor its
    list file, and the list file is not the destination. *)
Hypothesis temp_file_apart :
  forall w w' p, _temp_file_name w = (w', inr p) ->
                 p <> final_destination /\ p <> with_suffix_txt final_destination.
Hypothesis list_file_apart :
  with_suffix_txt final_destination <> final_destination.

(** After the loop over the chunks, every temporary file holds audio. *)
Lemma chunks_loop_inv chunks temp_files w w' temp_files' :
  chunks_loop chunks temp_files w = (w', temp_files', None) ->
  (forall p, p ∈ temp_files ->
     holds_audio p w /\ p <> final_destination
     /\ p <> with_suffix_txt final_destination) ->
  (forall p, p ∈ temp_files' ->
     holds_audio p w' /\ p <> final_destination
     /\ p <> with_suffix_txt final_destination)
  /\ length temp_files' = (length temp_files + length chunks)%nat.
Proof.
  revert temp_files w. induction chunks as [|chunk rest IH]; intros temps w.
  - intros [= <- <-] Hgood. split; [done|]. simpl. lia.
  - cbn [generate_chunks].
    destruct (_temp_file_name w) as [w1 [e|p]] eqn:Et; [done|].
    destruct (generate p chunk w1) as [[w2 tr] [e|size]] eqn:Eg; [done|].
    intros Hrec Hgood. apply IH in Hrec.
    + destruct Hrec as [Hgood' Hlen]. split; [done|].
      rewrite Hlen, length_app. simpl. lia.
    + destruct (temp_file_new _ _ _ Et) as [Hfresh Hfiles].
      intros q [Hq|Hq]%elem_of_app.
      * destruct (Hgood q Hq) as (Haudio & Hd & Hl). split; [|done].
        assert (q <> p) as Hqp.
        { intros ->. destruct Haudio as (content & Hc & _). congruence. }
        eapply holds_audio_elsewhere; [by eapply generate_frame|done|].
        destruct Haudio as (content & Hc & Hne). exists content.
        split; [|done]. by rewrite Hfiles, lookup_insert_ne.
      * apply list_elem_of_singleton in Hq as ->.
        split; [by eapply generate_ok|by eapply temp_file_apart].
Qed.

(** When the merge returns, the destination holds audio. *)
Lemma merge_ok temp_files w w' :
  merge temp_files final_destination w = (w', inr tt) ->
  temp_files <> [] ->
  (forall p, p ∈ temp_files ->
     holds_audio p w /\ p <> with_suffix_txt final_destination) ->
  holds_audio final_destination w'.
Proof.
  unfold _merge_audio_files. intros Hmerge Hne Hgood.
  destruct (ffmpeg temp_files _ final_destination _) as [w2 r] eqn:Ef.
  assert (r = inr tt /\ w' = unlink_if_exists (with_suffix_txt final_destination) w2)
    as [-> ->].
  { destruct r as [e|[]]; [by destruct e|]. by inversion Hmerge. }
  apply ffmpeg_ok in Ef; [|done|].
  - destruct Ef as (content & Hc & Hcne). exists content. split; [|done].
    by rewrite unlink_other.
  - intros p Hp. destruct (Hgood p Hp) as [(content & Hc & Hcne) Hl].
    exists content. split; [|done]. simpl. by rewrite lookup_insert_ne.
Qed.

End Worker.

(** C4 (file on success), as the code has it. Take for granted that the
    plain-text [save] leaves audio in its file and touches no other, that
    [mkstemp] makes new files apart from the destination and its list
    file, and that a successful [ffmpeg] run on files holding audio leaves
    audio in its output, and let the pre-processing return a text. If
    that text is neither empty nor white space only, then whenever
    [_generate_single_file] returns without raising, the destination
    exists and is not empty. If that text is empty or white space only,
    [_generate_single_file] returns without raising and does nothing
    after the pre-processing, so the destination is as the pre-processing
    left it. *)
Theorem single_file_leaves_audio
  (voice_id rate_str : str) (use_stress gemini_enabled thinking_mode : bool)
  (session_output_format : bytes)
  (_build_ssml : str -> str -> bool -> bool -> bytes)
  (communicate_save : str -> bytes -> World -> World * option exn)
  (prepare_text_for_tts : str -> bool -> bool -> World -> World * result str)
  (_temp_file_name : World -> World * result bytes)
  (with_suffix_txt : bytes -> bytes)
  (manifest : list bytes -> bytes)
  (ffmpeg : list bytes -> bytes -> bytes -> World -> World * result unit)
  (text : str) (final_destination : bytes) (w w0 : World) (prepared : str) :
  (forall input p w w', communicate_save input p w = (w', None) -> holds_audio p w') ->
  (forall input p w w' r,
      communicate_save input p w = (w', r) -> same_elsewhere p w w') ->
  (forall w w' p, _temp_file_name w = (w', inr p) ->
                  files w !! p = None /\ files w' = <[p := []]> (files w)) ->
  (forall inputs list_file out w w',
      ffmpeg inputs list_file out w = (w', inr tt) ->
      inputs <> [] -> (forall p, p ∈ inputs -> holds_audio p w) ->
      holds_audio out w') ->
  (forall w w' p, _temp_file_name w = (w', inr p) ->
                  p <> final_destination /\ p <> with_suffix_txt final_destination) ->
  with_suffix_txt final_destination <> final_destination ->
  prepare_text_for_tts text gemini_enabled thinking_mode w = (w0, inr prepared) ->
  (prepared <> [] -> strip prepared <> [] ->
   forall w',
     _generate_single_file voice_id rate_str use_stress gemini_enabled
       thinking_mode session_output_format _build_ssml communicate_save
       prepare_text_for_tts _temp_file_name with_suffix_txt manifest ffmpeg
       text final_destination w = Some (w', inr tt) ->
     holds_audio final_destination w')
  /\ (prepared = [] \/ strip prepared = [] ->
      _generate_single_file voice_id rate_str use_stress gemini_enabled
        thinking_mode session_output_format _build_ssml communicate_save
        prepare_text_for_tts _temp_file_name with_suffix_txt manifest ffmpeg
        text final_destination w = Some (w0, inr tt)).
Proof.
  intros Hsave Hframe Htemp Hffmpeg Hapart Hlist Hprep.
  unfold _generate_single_file. rewrite Hprep. split.
  2:{ intros Hblank. by rewrite decide_True. }
  intros Hne Hstrip w' Hrun. rewrite decide_False in Hrun by tauto.
  pose proof (chunk_text_not_nil 5000 ltac:(lia) prepared) as Hnil.
  destruct (_chunk_text prepared 5000) as [[|chunk [|chunk2 chunks]]|];
    [done| | |done].
  - destruct (worker_generate_audio _ _ _ _ _ _ final_destination chunk w0)
      as [[w1 tr] [e|size]] eqn:Eg; [done|].
    inversion Hrun; subst. by eapply generate_ok.
  - destruct (generate_chunks _ _ _ _ _ _ _ _ [] w0)
      as [[w1 temp_files] [e|]] eqn:El; [done|].
    destruct (_merge_audio_files _ _ _ temp_files final_destination w1)
      as [w2 r] eqn:Em.
    inversion Hrun; subst.
    eapply chunks_loop_inv in El as [Hgood Hlen]; eauto.
    2:{ intros p Hp. by apply elem_of_nil in Hp. }
    assert (holds_audio final_destination w2) as (content & Hc & Hcne).
    { eapply merge_ok; eauto.
      - intros ->. simpl in Hlen. lia.
      - intros p Hp. destruct (Hgood p Hp) as (? & ? & ?). done. }
    exists content. split; [|done]. rewrite cleanup_other; [done|].
    intros Hin. by destruct (Hgood _ Hin) as (_ & ? & _).
Qed.

Lemma sample_communicate_save_ok input p w w' :
  sample_communicate_save input p w = (w', None) -> holds_audio p w'.
Proof.
  intros [= <-]. exists (B "ID3"). simpl. by rewrite lookup_insert_eq.
Qed.

Lemma sample_communicate_save_frame input p w w' r :
  sample_communicate_save input p w = (w', r) -> same_elsewhere p w w'.
Proof. intros [= <- _] q Hq. simpl. by rewrite lookup_insert_ne. Qed.

Lemma sample_temp_file_new w w' p :
  sample_temp_file_name w = (w', inr p) ->
  files w !! p = None /\ files w' = <[p := []]> (files w).
Proof.
  unfold sample_temp_file_name. repeat case_decide; by intros [= <- <-].
Qed.

Lemma sample_temp_file_apart w w' p :
  sample_temp_file_name w = (w', inr p) ->
  p <> B "out.mp3" /\ p <> sample_with_suffix_txt (B "out.mp3").
Proof.
  unfold sample_temp_file_name. repeat case_decide; by intros [= <- <-].
Qed.

Lemma sample_ffmpeg_ok inputs list_file out w w' :
  sample_ffmpeg inputs list_file out w = (w', inr tt) ->
  inputs <> [] -> (forall p, p ∈ inputs -> holds_audio p w) ->
  holds_audio out w'.
Proof.
  unfold sample_ffmpeg. destruct (mapM _ inputs) as [contents|]; [|done].
  case_decide as Hc; [done|]. intros [= <-] _ _.
  exists (concat contents). simpl. by rewrite lookup_insert_eq.
Qed.

Lemma single_file_leaves_audio_witness :
  holds_audio (B "out.mp3") sample_world_after
  /\ sample_single_file (S_ "   ") (B "out.mp3") sample_world
     = Some (sample_world, inr tt).
Proof.
  split.
  - destruct (single_file_leaves_audio (S_ "ru-RU-DmitryNeural") (S_ "+0%")
                false true false
                (B "audio-24khz-48kbitrate-mono-mp3") sample_build_ssml
                sample_communicate_save sample_prepare sample_temp_file_name
                sample_with_suffix_txt sample_manifest sample_ffmpeg
                (S_ "Hello.") (B "out.mp3") sample_world sample_world
                (S_ "Hello.")) as [Haudio _].
    + exact sample_communicate_save_ok.
    + exact sample_communicate_save_frame.
    + exact sample_temp_file_new.
    + exact sample_ffmpeg_ok.
    + exact sample_temp_file_apart.
    + vm_compute. congruence.
    + reflexivity.
    + apply Haudio.
      * vm_compute. congruence.
      * vm_compute. congruence.
      * vm_compute. reflexivity.
  - destruct (single_file_leaves_audio (S_ "ru-RU-DmitryNeural") (S_ "+0%")
                false true false
                (B "audio-24khz-48kbitrate-mono-mp3") sample_build_ssml
                sample_communicate_save sample_prepare sample_temp_file_name
                sample_with_suffix_txt sample_manifest sample_ffmpeg
                (S_ "   ") (B "out.mp3") sample_world sample_world
                (S_ "   ")) as [_ Hblank].
    + exact sample_communicate_save_ok.
    + exact sample_communicate_save_frame.
    + exact sample_temp_file_new.
    + exact sample_ffmpeg_ok.
    + exact sample_temp_file_apart.
    + vm_compute. congruence.
    + reflexivity.
    + apply Hblank. right. reflexivity.
Defined.

(** C4, refuted as stated: for a text that is white space only after the
    pre-processing, and for the empty text, [_generate_single_file]
    returns without raising and the destination does not exist. *)
Lemma blank_text_leaves_no_file :
  sample_single_file (S_ "   ") (B "out.mp3") sample_world
  = Some (sample_world, inr tt)
  /\ sample_single_file [] (B "out.mp3") sample_world
     = Some (sample_world, inr tt)
  /\ files sample_world !! B "out.mp3" = None
  /\ ~ holds_audio (B "out.mp3") sample_world.
Proof.
  split; [by vm_compute|]. split; [by vm_compute|]. split; [done|].
  by intros (content & Hc & _).
Qed.

End WorkerFacts.

(* ===================================================================== *)
(** * More on the frame loop and the header parser                        *)
(* ===================================================================== *)

Module FrameFacts.
Import Py PyFacts SsmlClient CodecFacts SessionFacts.

Lemma frame_loop_text_other t parameters body rest flag :
  decode_text_frame t = inr (parameters, body) ->
  parameters !! B "Path" <> Some (B "turn.end") ->
  frame_loop (Recv (WsText t) :: rest) flag = frame_loop rest flag.
Proof.
  intros Hdec Hpath. cbn [frame_loop]. rewrite Hdec. by rewrite decide_False.
Qed.

Lemma frame_loop_turn_end t parameters body rest flag :
  decode_text_frame t = inr (parameters, body) ->
  parameters !! B "Path" = Some (B "turn.end") ->
  frame_loop (Recv (WsText t) :: rest) flag = ([], flag, TurnEnd).
Proof.
  intros Hdec Hpath. cbn [frame_loop]. rewrite Hdec. by rewrite decide_True.
Qed.

(** X1. A text frame whose headers parse and whose [Path] is not
    [turn.end] ([turn.start], [response], [audio.metadata], anything else,
    or no [Path] at all) changes nothing: wherever it stands, the loop
    yields the same chunks and ends the same way as without it. *)
Theorem informational_text_ignored
  (pre post : list ws_event) (t : bytes) (parameters : gmap bytes bytes)
  (body : bytes) (flag : bool) :
  decode_text_frame t = inr (parameters, body) ->
  parameters !! B "Path" <> Some (B "turn.end") ->
  frame_loop (pre ++ Recv (WsText t) :: post) flag = frame_loop (pre ++ post) flag.
Proof.
  intros Hdec Hpath. revert flag. induction pre as [|ev pre IH]; intros flag.
  - by eapply frame_loop_text_other.
  - simpl app.
    destruct (frame_loop_step ev flag) as [[r Hr]|[[f Hf]|(c & f & Hf)]].
    + by rewrite !Hr.
    + by rewrite !Hf, IH.
    + by rewrite !Hf, IH.
Qed.

Lemma informational_text_ignored_witness :
  frame_loop ([Recv (WsBinary (audio_frame (B "mp3")))]
              ++ Recv (WsText (B "Path:audio.metadata" ++ CRLF ++ CRLF ++ B "{}"))
              :: [Recv (WsText turn_end_frame)]) false
  = frame_loop ([Recv (WsBinary (audio_frame (B "mp3")))]
                ++ [Recv (WsText turn_end_frame)]) false.
Proof.
  apply (informational_text_ignored
           [Recv (WsBinary (audio_frame (B "mp3")))]
           [Recv (WsText turn_end_frame)]
           (B "Path:audio.metadata" ++ CRLF ++ CRLF ++ B "{}")
           (<[B "Path" := B "audio.metadata"]> ∅) (CRLF ++ B "{}") false).
  - vm_compute. reflexivity.
  - vm_compute. congruence.
Defined.

(** X2. Nothing that arrives after a [turn.end] frame is looked at: two
    incoming sequences that agree up to and including a [turn.end] frame
    give the same chunks, the same flag and the same ending, also when
    what follows would have raised. *)
Theorem nothing_read_after_turn_end
  (pre post post' : list ws_event) (t : bytes) (parameters : gmap bytes bytes)
  (body : bytes) (flag : bool) :
  decode_text_frame t = inr (parameters, body) ->
  parameters !! B "Path" = Some (B "turn.end") ->
  frame_loop (pre ++ Recv (WsText t) :: post) flag
  = frame_loop (pre ++ Recv (WsText t) :: post') flag.
Proof.
  intros Hdec Hpath. revert flag. induction pre as [|ev pre IH]; intros flag.
  - simpl app. by rewrite !(frame_loop_turn_end t parameters body).
  - simpl app.
    destruct (frame_loop_step ev flag) as [[r Hr]|[[f Hf]|(c & f & Hf)]].
    + by rewrite !Hr.
    + by rewrite !Hf, IH.
    + by rewrite !Hf, IH.
Qed.

Lemma nothing_read_after_turn_end_witness :
  frame_loop ([Recv (WsBinary (audio_frame (B "mp3")))]
              ++ Recv (WsText turn_end_frame)
              :: [RecvRaises TimeoutError]) false
  = frame_loop ([Recv (WsBinary (audio_frame (B "mp3")))]
                ++ Recv (WsText turn_end_frame) :: []) false.
Proof.
  apply (nothing_read_after_turn_end
           [Recv (WsBinary (audio_frame (B "mp3")))]
           [RecvRaises TimeoutError] [] turn_end_frame
           (<[B "Path" := B "turn.end"]> ∅) CRLF false).
  - vm_compute. reflexivity.
  - vm_compute. reflexivity.
Defined.

Lemma find_colon_cons (c : ascii) (l : bytes) :
  find (c :: l) (B ":") = -1 <-> c <> ":"%char /\ find l (B ":") = -1.
Proof.
  rewrite !find_none. split.
  - intros H. split.
    + pose proof (H 0%nat) as H0. simpl in H0. rewrite andb_true_r in H0.
      apply bool_decide_eq_false in H0. congruence.
    + intros k. apply (H (S k)).
  - intros [Hc H] [|k]; [|apply H]. simpl. rewrite andb_true_r.
    apply bool_decide_eq_false. congruence.
Qed.

(** [line.split(b":", 1)]: the line itself when it has no colon, else what
    stands before the first colon and what stands after it. *)
Lemma split_colon_cases (line : bytes) :
  (find line (B ":") = -1 /\ split_n line (B ":") 1 = [line])
  \/ (exists key value,
        line = key ++ B ":" ++ value /\ find key (B ":") = -1
        /\ split_n line (B ":") 1 = [key; value]).
Proof.
  induction line as [|c l IH].
  - left. by split.
  - destruct (decide (c = ":"%char)) as [->|Hc].
    + right. exists [], l. split; [done|]. split; [done|].
      unfold split_n. cbn. by rewrite split_go_zero.
    + assert (split_n (c :: l) (B ":") 1 = cons_head c (split_n l (B ":") 1))
        as Hstep.
      { unfold split_n. cbn [split_go]. simpl startswith.
        rewrite bool_decide_eq_false_2 by congruence. done. }
      destruct IH as [[Hno Hs]|(key & value & -> & Hno & Hs)].
      * left. split; [by apply find_colon_cons|]. by rewrite Hstep, Hs.
      * right. exists (c :: key), value. split; [done|].
        split; [by apply find_colon_cons|]. by rewrite Hstep, Hs.
Qed.

Lemma header_loop_error (lines : list bytes) (headers : gmap bytes bytes) e :
  header_loop lines headers = inl e
  <-> e = ValueError "not enough values to unpack (expected 2, got 1)"
      /\ exists line, line ∈ lines /\ find line (B ":") = -1.
Proof.
  revert headers. induction lines as [|line rest IH]; intros headers.
  - simpl. split; [done|]. intros [_ (line & Hin & _)]. by apply elem_of_nil in Hin.
  - cbn [header_loop].
    destruct (split_colon_cases line) as [[Hno ->]|(key & value & -> & Hno & ->)].
    + split.
      * intros [= <-]. split; [done|]. exists line. split; [left|done].
      * by intros [-> _].
    + rewrite IH. split.
      * intros [-> (l & Hin & Hl)]. split; [done|]. exists l. split; [by right|done].
      * intros [-> (l & Hin & Hl)]. split; [done|]. exists l. split; [|done].
        apply elem_of_cons in Hin as [->|Hin]; [|done].
        exfalso. apply find_none with (k := length key) in Hl.
        rewrite drop_app_length in Hl. by rewrite startswith_app in Hl.
Qed.

(** X3. [get_headers_and_data] raises exactly when some line of the header
    block has no colon, and what it raises is then the [ValueError] of the
    failed unpacking; the block is [data[:header_length]] cut at every
    [CRLF], so an empty block always raises. *)
Theorem header_parse_error (data : bytes) (header_length : Z) (e : exn) :
  get_headers_and_data data header_length = inl e
  <-> e = ValueError "not enough values to unpack (expected 2, got 1)"
      /\ exists line,
           line ∈ split (slice_to data header_length) CRLF
           /\ find line (B ":") = -1.
Proof.
  unfold get_headers_and_data. rewrite <- (header_loop_error _ ∅).
  destruct (header_loop _ ∅) as [e'|headers]; split; intros H; by inversion H.
Qed.

Lemma ascii_of_N_of_ascii_eq (a : ascii) (n : N) :
  N_of_ascii a = n -> a = ascii_of_N n.
Proof. intros <-. by rewrite ascii_N_embedding. Qed.

(** X4. A binary message of at least two bytes that declares a header
    length of 0, 1 or 2 is not dropped: its header block has no colon, and
    the loop ends there with the [ValueError]. *)
Theorem short_header_length_raises
  (data : bytes) (rest : list ws_event) (flag : bool) :
  2 <= len data ->
  int_from_bytes_big (slice_to data 2) <= 2 ->
  frame_loop (Recv (WsBinary data) :: rest) flag
  = ([], flag, LoopRaised (ValueError "not enough values to unpack (expected 2, got 1)")).
Proof.
  intros Hlen Hdecl.
  destruct data as [|hi [|lo tl]]; [unfold len in Hlen; simpl in Hlen; lia..|].
  cbn [frame_loop].
  destruct (Z.ltb_spec (len (hi :: lo :: tl)) 2) as [|_]; [lia|].
  change (slice_to (hi :: lo :: tl) 2) with [hi; lo] in *.
  assert (int_from_bytes_big [hi; lo]
          = Z.of_N (N_of_ascii hi) * 256 + Z.of_N (N_of_ascii lo)) as Hval.
  { unfold int_from_bytes_big. simpl. lia. }
  rewrite Hval in Hdecl. clear Hval.
  assert (N_of_ascii hi = 0%N) as Hhi by lia.
  assert (N_of_ascii lo = 0 \/ N_of_ascii lo = 1 \/ N_of_ascii lo = 2)%N
    as Hlo by lia.
  apply ascii_of_N_of_ascii_eq in Hhi. subst hi.
  assert (0 <= len tl) as Htl by apply len_nonneg.
  assert (len (ascii_of_N 0 :: lo :: tl) = 2 + len tl) as Hlen'.
  { unfold len. simpl length. lia. }
  destruct Hlo as [Hlo|[Hlo|Hlo]];
    apply ascii_of_N_of_ascii_eq in Hlo; subst lo.
  - change (int_from_bytes_big [ascii_of_N 0; ascii_of_N 0]) with 0.
    destruct (Z.gtb_spec 0 (len (ascii_of_N 0 :: ascii_of_N 0 :: tl)));
      [lia|reflexivity].
  - change (int_from_bytes_big [ascii_of_N 0; ascii_of_N 1]) with 1.
    destruct (Z.gtb_spec 1 (len (ascii_of_N 0 :: ascii_of_N 1 :: tl)));
      [lia|reflexivity].
  - change (int_from_bytes_big [ascii_of_N 0; ascii_of_N 2]) with 2.
    destruct (Z.gtb_spec 2 (len (ascii_of_N 0 :: ascii_of_N 2 :: tl)));
      [lia|reflexivity].
Qed.

Lemma short_header_length_raises_witness :
  frame_loop (Recv (WsBinary ([zero; zero] ++ B "Path:audio")) :: []) false
  = ([], false, LoopRaised (ValueError "not enough values to unpack (expected 2, got 1)")).
Proof.
  apply (short_header_length_raises ([zero; zero] ++ B "Path:audio") [] false).
  - vm_compute. congruence.
  - vm_compute. congruence.
Defined.

(** A binary message with the one-line header block [key:value CRLF],
    read with the length of that block. *)
Lemma one_line_header_parse (p1 p2 : ascii) (key value payload : bytes) :
  nocrlf ([p1; p2] ++ key ++ B ":" ++ value) ->
  find ([p1; p2] ++ key) (B ":") = -1 ->
  get_headers_and_data
    ([p1; p2] ++ (key ++ B ":" ++ value ++ CRLF) ++ payload)
    (len (key ++ B ":" ++ value ++ CRLF))
  = inr (<[[p1; p2] ++ key := value]> ∅, payload).
Proof.
  intros Hline Hkey.
  set (line := [p1; p2] ++ key ++ B ":" ++ value) in *.
  assert ([p1; p2] ++ (key ++ B ":" ++ value ++ CRLF) ++ payload
          = line ++ CRLF ++ payload) as ->.
  { subst line. by rewrite <- !app_assoc. }
  assert (len (key ++ B ":" ++ value ++ CRLF) = len line) as Hlen.
  { subst line. rewrite !len_app. unfold len. simpl. lia. }
  unfold get_headers_and_data. rewrite Hlen, slice_to_app_len.
  unfold split, split_n. rewrite split_crlf_last by done.
  cbn [header_loop]. subst line.
  rewrite (app_assoc [p1; p2] key), split_header_line by done.
  f_equal. f_equal.
  rewrite (app_assoc _ CRLF payload). change 2 with (len CRLF).
  rewrite <- len_app. apply slice_from_app_len.
Qed.

(** X5. A binary message with a one-line header block [key:value CRLF],
    read with the length of that block: the payload comes back byte for
    byte, whatever it holds, and so does the value; the key comes back
    with the two length bytes in front of it, because the block is cut
    from the start of the message. *)
Theorem binary_one_line_header
  (p1 p2 : ascii) (key value payload : bytes) :
  nocrlf ([p1; p2] ++ key ++ B ":" ++ value) ->
  find ([p1; p2] ++ key) (B ":") = -1 ->
  get_headers_and_data
    ([p1; p2] ++ (key ++ B ":" ++ value ++ CRLF) ++ payload)
    (len (key ++ B ":" ++ value ++ CRLF))
  = inr (<[[p1; p2] ++ key := value]> ∅, payload)
  /\ (<[[p1; p2] ++ key := value]> (∅ : gmap bytes bytes)) !! key = None.
Proof.
  intros Hline Hkey. split; [by apply one_line_header_parse|].
  apply lookup_insert_None. split; [done|].
  intros Heq. apply (f_equal length) in Heq. rewrite length_app in Heq.
  simpl in Heq. lia.
Qed.

Lemma binary_one_line_header_witness :
  get_headers_and_data
    ([zero; ascii_of_nat 12] ++ (B "Path" ++ B ":" ++ B "audio" ++ CRLF) ++ B "mp3")
    (len (B "Path" ++ B ":" ++ B "audio" ++ CRLF))
  = inr (<[[zero; ascii_of_nat 12] ++ B "Path" := B "audio"]> ∅, B "mp3").
Proof.
  apply (binary_one_line_header zero (ascii_of_nat 12) (B "Path") (B "audio") (B "mp3"));
    reflexivity.
Defined.

(** X6. A binary message whose header block is the single line
    [Path:audio] is not taken for audio: its payload is dropped, whatever
    it is, because the key that is read is not [Path]. *)
Theorem path_first_line_not_audio
  (payload : bytes) (rest : list ws_event) (flag : bool) :
  frame_loop
    (Recv (WsBinary ([zero; ascii_of_nat 12]
                     ++ (B "Path" ++ B ":" ++ B "audio" ++ CRLF) ++ payload))
     :: rest) flag
  = frame_loop rest flag.
Proof.
  cbn [frame_loop].
  set (data := [zero; ascii_of_nat 12]
               ++ (B "Path" ++ B ":" ++ B "audio" ++ CRLF) ++ payload).
  assert (len data = 14 + len payload) as Hlen.
  { subst data. unfold len. simpl length. lia. }
  pose proof (len_nonneg payload) as Hp.
  destruct (Z.ltb_spec (len data) 2) as [|_]; [lia|].
  change (int_from_bytes_big (slice_to data 2))
    with (len (B "Path" ++ B ":" ++ B "audio" ++ CRLF)).
  destruct (Z.gtb_spec (len (B "Path" ++ B ":" ++ B "audio" ++ CRLF)) (len data))
    as [Hgt|_]; [change (len (B "Path" ++ B ":" ++ B "audio" ++ CRLF)) with 12 in Hgt; lia|].
  subst data. rewrite one_line_header_parse by reflexivity.
  rewrite decide_True; [done|]. vm_compute. congruence.
Qed.

(** Every run of [stream] leaves the instance marked as used. *)
Lemma stream_marks_used (self : SSMLCommunicate) (n : Net) :
  stream_was_called (stream self n).1.1.1 = true.
Proof.
  unfold stream. destruct (stream_was_called self) eqn:E; [done|].
  destruct (__stream n) as [na [ys1 r1]].
  destruct r1 as [e|]; [|done]. destruct e; try done.
  case_decide; [done|].
  destruct (handle_client_response_error na) as [nb [e|]]; [done|].
  by destruct (__stream nb) as [nc [ys2 r2]].
Qed.

(** X7. Calling [save] a second time on the same instance raises the usage
    error, opens no connection, and leaves the file empty: the file is
    opened for writing before [stream] is asked, so whatever a first
    [save] had put there is lost. *)
Theorem second_save_empties_file
  (self : SSMLCommunicate) (audio_fname : bytes) (w : World) :
  let first := save self audio_fname w in
  save first.1.1 audio_fname first.1.2
  = (first.1.1,
     mkWorld (<[audio_fname := []]> (files first.1.2)) (net first.1.2),
     Some (RuntimeError "stream can only be called once." None)).
Proof.
  intros first. subst first. unfold save at 1.
  pose proof (stream_marks_used self (net w)) as Hused.
  unfold save. destruct (stream self (net w)) as [[[self1 n1] ys] r].
  simpl in *. unfold stream. by rewrite Hused.
Qed.

End FrameFacts.

(* ===================================================================== *)
(** * The schedule of [_generate_audio]: properties                       *)
(* ===================================================================== *)

Module ScheduleFacts.
Import Py SsmlClient TtsWorker OrchestratorFacts Schedule.

Section Generic.
Context {W : Type}.
Variable synth : Tier -> bytes -> str -> str -> W -> W * result Z.
Variable sleep : Z -> W -> W.
Variable destination : bytes.
Variables text rate_str : str.

Local Abbreviation attempt := (_attempt_generate_audio synth destination text rate_str).
Local Abbreviation generate := (_generate_audio synth sleep destination text rate_str).

(** X8. Whatever the session layer does, what [_generate_audio] does to
    the outside is a beginning of one fixed schedule: the three tiers in
    order, a sleep of 1 second, the three tiers, a sleep of 2 seconds, the
    three tiers.  So it never makes more than nine attempts, never sleeps
    more than three seconds in all, and never tries a tier before the
    richer ones have failed in the same round. *)
Theorem trace_within_schedule (w : W) :
  (generate w).1.2 `prefix_of` full_schedule
  /\ (length (filter is_attempt (generate w).1.2) <= 9)%nat
  /\ 0 <= slept (generate w).1.2 <= 3.
Proof.
  assert (exists k, full_schedule = (generate w).1.2 ++ k
                    /\ (length (filter is_attempt (generate w).1.2) <= 9)%nat
                    /\ 0 <= slept (generate w).1.2 <= 3) as (k & Hk & Hn & Hs).
  { rewrite generate_audio_rounds.
    pose proof (attempt_trace synth destination text rate_str w) as T1.
    destruct (attempt w) as [[w1 tr1] [e1|s1]] eqn:E1; simpl in T1.
    2:{ destruct T1 as [-> | [-> | ->]];
          (eexists; split;
           [reflexivity|vm_compute; split; [lia|split; congruence]]). }
    destruct (is_exception e1) eqn:X1; cbn [negb].
    2:{ destruct T1 as [-> | [-> | ->]];
          (eexists; split;
           [reflexivity|vm_compute; split; [lia|split; congruence]]). }
    clear T1. apply attempt_failure_trace in E1 as ->; [|done].
    pose proof (attempt_trace synth destination text rate_str (sleep 1 w1)) as T2.
    destruct (attempt (sleep 1 w1)) as [[w2 tr2] [e2|s2]] eqn:E2; simpl in T2.
    2:{ destruct T2 as [-> | [-> | ->]];
          (eexists; split;
           [reflexivity|vm_compute; split; [lia|split; congruence]]). }
    destruct (is_exception e2) eqn:X2; cbn [negb].
    2:{ destruct T2 as [-> | [-> | ->]];
          (eexists; split;
           [reflexivity|vm_compute; split; [lia|split; congruence]]). }
    clear T2. apply attempt_failure_trace in E2 as ->; [|done].
    pose proof (attempt_trace synth destination text rate_str (sleep 2 w2)) as T3.
    destruct (attempt (sleep 2 w2)) as [[w3 tr3] [e3|s3]] eqn:E3; simpl in T3;
      destruct T3 as [-> | [-> | ->]];
      (eexists; split;
       [reflexivity|vm_compute; split; [lia|split; congruence]]). }
  split; [by exists k|done].
Qed.

(** X9. [_generate_audio] does not give up early on failures: when it
    raises an exception of class [Exception], it has run the whole
    schedule, nine attempts and both sleeps, and each of the three rounds
    has failed.  (An exception of another class, a cancellation, passes
    through at once.) *)
Theorem raises_only_when_exhausted (w w' : W) (tr : list event) (e : exn) :
  generate w = (w', tr, inl e) ->
  is_exception e = true ->
  tr = full_schedule
  /\ exists w1 w2 e1 e2 last cascade,
       attempt w = (w1, cascade, inl e1)
       /\ attempt (sleep 1 w1) = (w2, cascade, inl e2)
       /\ attempt (sleep 2 w2) = (w', cascade, inl last)
       /\ e = final_error (Some last).
Proof.
  rewrite generate_audio_rounds.
  destruct (attempt w) as [[w1 tr1] [e1|s1]] eqn:E1; [|done].
  destruct (is_exception e1) eqn:X1; cbn [negb];
    [|intros [= <- <- <-]; congruence].
  destruct (attempt (sleep 1 w1)) as [[w2 tr2] [e2|s2]] eqn:E2; [|done].
  destruct (is_exception e2) eqn:X2; cbn [negb];
    [|intros [= <- <- <-]; congruence].
  destruct (attempt (sleep 2 w2)) as [[w3 tr3] [e3|s3]] eqn:E3; [|done].
  intros [= <- <- <-] He.
  assert (is_exception e3 = true) as X3.
  { by destruct e3. }
  pose proof (attempt_failure_trace _ _ _ _ _ _ _ _ E1 X1) as ->.
  pose proof (attempt_failure_trace _ _ _ _ _ _ _ _ E2 X2) as ->.
  pose proof (attempt_failure_trace _ _ _ _ _ _ _ _ E3 X3) as ->.
  split; [reflexivity|]. by eexists w1, w2, e1, e2, e3, _.
Qed.

End Generic.

Lemma raises_only_when_exhausted_witness :
  [Attempt SilenceTagged; Attempt BreakTagged; Attempt PlainOrRawText;
   Sleep 1;
   Attempt SilenceTagged; Attempt BreakTagged; Attempt PlainOrRawText;
   Sleep 2;
   Attempt SilenceTagged; Attempt BreakTagged; Attempt PlainOrRawText]
  = full_schedule.
Proof.
  apply (raises_only_when_exhausted (scripted_synth always_timeout) scripted_sleep
           (B "out.mp3") (S_ "Hello.") (S_ "+0%") []
           [SilenceTagged; BreakTagged; PlainOrRawText;
            SilenceTagged; BreakTagged; PlainOrRawText;
            SilenceTagged; BreakTagged; PlainOrRawText]
           _ TimeoutError); reflexivity.
Defined.

End ScheduleFacts.

(* ===================================================================== *)
(** * More on the chunker                                                 *)
(* ===================================================================== *)

Module ChunkerMore.
Import Py PyFacts TtsWorker ChunkerFacts.

Lemma lstrip_idem (s : str) : lstrip (lstrip s) = lstrip s.
Proof.
  destruct (lstrip s) as [|c r] eqn:E; [done|].
  apply lstrip_nonspace. by eapply lstrip_head.
Qed.

Lemma rstrip_idem (s : str) : rstrip (rstrip s) = rstrip s.
Proof. unfold rstrip. by rewrite rev_involutive, lstrip_idem. Qed.

Lemma lstrip_fixed_head (c : N) (r : str) :
  lstrip (c :: r) = c :: r -> isspace c = false.
Proof. intros H. by eapply lstrip_head. Qed.

Lemma lstrip_rstrip_fixed (a : str) : lstrip a = a -> lstrip (rstrip a) = rstrip a.
Proof.
  destruct a as [|c r]; [done|]. intros Hc%lstrip_fixed_head.
  rewrite rstrip_cons_nonspace by done. by apply lstrip_nonspace.
Qed.

(** Stripping twice is stripping once. *)
Lemma strip_idem (s : str) : strip (strip s) = strip s.
Proof.
  unfold strip. rewrite lstrip_rstrip_fixed by apply lstrip_idem.
  apply rstrip_idem.
Qed.

Section Cut.
Variable max_chars : Z.
Hypothesis max_chars_pos : 0 < max_chars.

Lemma stripped_core (n : nat) (text : str) (chunks : list str) :
  (length text <= n)%nat ->
  max_chars < len text \/ strip text = text ->
  _chunk_text text max_chars = Some chunks ->
  Forall (fun c => strip c = c) chunks.
Proof.
  revert text chunks. induction n as [|n IH]; intros text chunks Hn Hcase.
  - destruct text; [|simpl in Hn; lia]. unfold _chunk_text.
    destruct (Z.leb_spec (len (@nil N)) max_chars) as [_|Hgt];
      [|unfold len in Hgt; simpl in Hgt; lia].
    intros [= <-]. by repeat constructor.
  - destruct (Z.leb_spec (len text) max_chars) as [Hle|Hgt].
    + destruct Hcase as [|Hfixed]; [lia|]. unfold _chunk_text.
      destruct (Z.leb_spec (len text) max_chars) as [_|]; [|lia].
      intros [= <-]. by repeat constructor.
    + rewrite (chunk_text_unfold max_chars max_chars_pos text Hgt).
      pose proof (rest_shorter max_chars max_chars_pos text Hgt) as Hshort.
      assert (strip (chunk_before_cut text max_chars)
              = chunk_before_cut text max_chars) as Hfirst
        by apply strip_idem.
      assert (strip (rest_after_cut text max_chars)
              = rest_after_cut text max_chars) as Hrest
        by apply strip_idem.
      case_decide as Hnil.
      * intros [= <-]. by repeat constructor.
      * destruct (_chunk_text (rest_after_cut text max_chars) max_chars)
          as [tail|] eqn:Etail; [|done].
        intros [= <-]. constructor; [done|].
        eapply (IH (rest_after_cut text max_chars)); [lia|by right|done].
Qed.

End Cut.

(** X10. When a text is longer than [max_chars] and so is split, every
    chunk comes out stripped: none begins or ends with white space.  (A
    text that fits is returned as it is, white space included.) *)
Theorem split_chunks_are_stripped (text : str) (max_chars : Z) (chunks : list str) :
  0 < max_chars -> max_chars < len text ->
  _chunk_text text max_chars = Some chunks ->
  Forall (fun c => strip c = c) chunks.
Proof.
  intros Hpos Hgt. apply (stripped_core max_chars Hpos (length text)); [lia|by left].
Qed.

Lemma split_chunks_are_stripped_witness :
  Forall (fun c => strip c = c) [S_ "Hi."; S_ "You!"; S_ "ok go"].
Proof.
  apply (split_chunks_are_stripped (S_ "Hi. You! ok go ") 6
           [S_ "Hi."; S_ "You!"; S_ "ok go"]).
  - lia.
  - vm_compute. reflexivity.
  - vm_compute. reflexivity.
Defined.

(** X11. With [max_chars = 0] the loop of [_chunk_text] never ends on a
    text that is non-empty and has no white space at either end: the cut
    is at position 0 every time, the text stays as it is, and no amount of
    fuel brings a result. *)
Theorem zero_max_chars_never_returns (text : str) :
  text <> [] -> strip text = text ->
  (forall fuel chunks, chunk_loop fuel text 0 chunks = None)
  /\ _chunk_text text 0 = None.
Proof.
  intros Hne Hfixed.
  assert (0 < len text) as Hlen.
  { destruct text; [done|]. unfold len. simpl. lia. }
  assert (split_index text 0 = 0) as Hcut.
  { unfold split_index. change (slice_to text 0) with (@nil N). reflexivity. }
  assert (forall fuel chunks, chunk_loop fuel text 0 chunks = None) as Hloop.
  { induction fuel as [|fuel IH]; intros chunks; cbn [chunk_loop];
      (destruct (Z.gtb_spec (len text) 0) as [_|]; [|lia]); [done|].
    rewrite Hcut. change (slice_from text 0) with text. rewrite Hfixed.
    apply IH. }
  split; [exact Hloop|]. unfold _chunk_text.
  destruct (Z.leb_spec (len text) 0); [lia|]. apply Hloop.
Qed.

Lemma zero_max_chars_never_returns_witness : _chunk_text (S_ "abc") 0 = None.
Proof.
  apply (zero_max_chars_never_returns (S_ "abc")).
  - vm_compute. congruence.
  - vm_compute. reflexivity.
Defined.

End ChunkerMore.

(* ===================================================================== *)
(** * More on the files the worker leaves                                 *)
(* ===================================================================== *)

Module CleanupFacts.
Import Py PyFacts SsmlClient SessionFacts TtsWorker OrchestratorFacts WorkerFacts.



(** X12. [_generate_audio] of the worker changes no file other than its
    destination, whether it returns or raises and whichever tiers it went
    through, provided the plain-text [save] of the third tier touches only
    the file it is given. *)
Theorem generate_audio_touches_only_destination
  (voice_id rate_str : str) (use_stress : bool) (session_output_format : bytes)
  (_build_ssml : str -> str -> bool -> bool -> bytes)
  (communicate_save : str -> bytes -> World -> World * option exn)
  (destination : bytes) (text : str) (w : World) (q : bytes) :
  (forall input p w w' r,
      communicate_save input p w = (w', r) -> same_elsewhere p w w') ->
  q <> destination ->
  files (worker_generate_audio voice_id rate_str use_stress
           session_output_format _build_ssml communicate_save
           destination text w).1.1 !! q
  = files w !! q.
Proof.
  intros Hframe Hq.
  destruct (worker_generate_audio _ _ _ _ _ _ destination text w)
    as [[w' tr] r] eqn:E.
  simpl. eapply generate_frame in E; [|exact Hframe]. by apply E.
Qed.

Lemma generate_audio_touches_only_destination_witness :
  files (worker_generate_audio (S_ "ru-RU-DmitryNeural") (S_ "+0%") false
           (B "audio-24khz-48kbitrate-mono-mp3") sample_build_ssml
           sample_communicate_save (B "out.mp3") (S_ "Hello.")
           (write_file (B "old.mp3") (B "old") sample_world)).1.1 !! B "old.mp3"
  = files (write_file (B "old.mp3") (B "old") sample_world) !! B "old.mp3".
Proof.
  apply (generate_audio_touches_only_destination (S_ "ru-RU-DmitryNeural")
           (S_ "+0%") false (B "audio-24khz-48kbitrate-mono-mp3")
           sample_build_ssml sample_communicate_save (B "out.mp3") (S_ "Hello.")
           (write_file (B "old.mp3") (B "old") sample_world) (B "old.mp3")).
  - exact sample_communicate_save_frame.
  - vm_compute. congruence.
Defined.




End CleanupFacts.

(* ===================================================================== *)
(** * The SSML builder: properties                                    *)
(* ===================================================================== *)

Module MarkupFacts.
Import Py PyFacts SsmlClient TtsWorker Markup.

Section SingleSeparator.
Context {A : Type} `{EqDecision A}.
Variable h : A.

Lemma split_go_not_nil (sep : list A) m k s : split_go sep m k s <> [].
Proof.
  revert m k. induction s as [|c s IH]; intros m k; simpl; [done|].
  destruct k; [|apply IH].
  destruct (m =? 0); [done|]. destruct (startswith sep (c :: s)); [done|].
  specialize (IH m 0%nat). by destruct (split_go sep m 0 s).
Qed.

Lemma split_char_step m c s :
  m < 0 ->
  split_go [h] m 0 (c :: s)
  = if decide (h = c) then [] :: split_go [h] (m - 1) 0 s
    else cons_head c (split_go [h] m 0 s).
Proof.
  intros Hm. simpl. destruct (Z.eqb_spec m 0); [lia|].
  rewrite andb_true_r. case_bool_decide.
  - by rewrite decide_True.
  - by rewrite decide_False.
Qed.

Lemma split_char_none m s : m < 0 -> h ∉ s -> split_go [h] m 0 s = [s].
Proof.
  intros Hm. induction s as [|c s IH]; intros Hs; [done|].
  rewrite split_char_step by done. apply not_elem_of_cons in Hs as [Hc Hs].
  rewrite decide_False by done. by rewrite IH.
Qed.

Lemma split_char_first m l r :
  m < 0 -> h ∉ l ->
  split_go [h] m 0 (l ++ h :: r) = l :: split_go [h] (m - 1) 0 r.
Proof.
  intros Hm. induction l as [|c l IH]; intros Hl.
  - simpl app. rewrite split_char_step by done. by rewrite decide_True.
  - apply not_elem_of_cons in Hl as [Hc Hl].
    change ((c :: l) ++ h :: r) with (c :: (l ++ h :: r)).
    rewrite split_char_step by done. rewrite decide_False by done.
    by rewrite IH.
Qed.

Lemma join_cons_head (new : list A) c ls :
  ls <> [] -> join new (cons_head c ls) = c :: join new ls.
Proof. intros Hls. destruct ls as [|l [|l' ls]]; done. Qed.

Lemma join_split_char (new : list A) m s :
  m < 0 ->
  join new (split_go [h] m 0 s)
  = flat_map (fun x => if decide (x = h) then new else [x]) s.
Proof.
  revert m. induction s as [|c s IH]; intros m Hm; [done|].
  rewrite split_char_step by done. destruct (decide (h = c)) as [<-|Hne].
  - cbn [flat_map]. rewrite decide_True by done.
    rewrite <- (IH (m - 1)) by lia.
    pose proof (split_go_not_nil [h] (m - 1) 0 s).
    by destruct (split_go [h] (m - 1) 0 s).
  - cbn [flat_map]. rewrite decide_False by done.
    rewrite join_cons_head by apply split_go_not_nil. by rewrite IH.
Qed.

End SingleSeparator.

Lemma replace_char (s new : str) (h : N) :
  replace s [h] new = flat_map (fun x => if decide (x = h) then new else [x]) s.
Proof. apply join_split_char. lia. Qed.

Lemma escape_flat_map (data : str) : escape data = flat_map escape_char data.
Proof.
  unfold escape. rewrite !replace_char.
  induction data as [|c data IH]; [done|].
  cbn [flat_map]. rewrite !flat_map_app, IH. f_equal.
  unfold escape_char.
  destruct (decide (c = AMP)) as [->|H1]; [reflexivity|].
  cbn [flat_map app].
  destruct (decide (c = GT)) as [->|H2]; [reflexivity|].
  cbn [flat_map app].
  destruct (decide (c = LT)) as [->|H3]; reflexivity.
Qed.

(** X15. [escape] acts on each character by itself: [&], [>] and [<]
    become [&amp;], [&gt;] and [&lt;] and every other character stays, so
    the ampersand of an entity made by one pass is not escaped again by
    another.  The result holds no [<] and no [>]. *)
Theorem escape_charwise (data : str) :
  escape data = flat_map escape_char data
  /\ (LT ∉ escape data) /\ (GT ∉ escape data).
Proof.
  split; [apply escape_flat_map|].
  rewrite escape_flat_map.
  split; intros Hin; apply list_elem_of_In, in_flat_map in Hin as (c & _ & Hc);
    unfold escape_char in Hc;
    repeat (destruct (decide _) in Hc; [vm_compute in Hc; intuition congruence|]);
    destruct Hc as [Hc|[]]; congruence.
Qed.

(** X16. [_voice_lang] gives [en-US] for a voice id without a hyphen.
    For any other voice id it gives the part in front of the second hyphen
    (the whole id when there is one hyphen only): two hyphen-free pieces
    with a hyphen between them. *)
Theorem voice_lang_cases (voice_id : str) :
  ((HYPHEN ∉ voice_id) /\ _voice_lang voice_id = S_ "en-US")
  \/ (exists lang region rest,
        voice_id = lang ++ HYPHEN :: region ++ rest
        /\ (HYPHEN ∉ lang) /\ (HYPHEN ∉ region)
        /\ (rest = [] \/ exists r, rest = HYPHEN :: r)
        /\ _voice_lang voice_id = lang ++ HYPHEN :: region).
Proof.
  unfold _voice_lang, split, split_n.
  destruct (decide (HYPHEN ∈ voice_id)) as [Hin|Hout].
  - right. apply list_elem_of_split_l in Hin as (l1 & l2 & -> & Hl1).
    rewrite split_char_first by (done || lia).
    destruct (decide (HYPHEN ∈ l2)) as [Hin2|Hout2].
    + apply list_elem_of_split_l in Hin2 as (l3 & l4 & -> & Hl3).
      rewrite split_char_first by (done || lia).
      exists l1, l3, (HYPHEN :: l4). repeat split; try done; [eauto|].
      unfold len. cbn [length].
      destruct (Z.geb_spec (Z.of_nat (S (S (length (split_go [HYPHEN] (-1 - 1 - 1) 0 l4))))) 2);
        [reflexivity|lia].
    + rewrite split_char_none by (done || lia).
      exists l1, l2, []. rewrite app_nil_r. repeat split; try done. by left.
  - left. split; [done|]. by rewrite split_char_none by (done || lia).
Qed.

Lemma punct_not_space c : is_break_punct c = true -> isspace c = false.
Proof.
  unfold is_break_punct. rewrite !orb_true_iff, !N.eqb_eq.
  intros [[[[-> | ->] | ->] | ->] | ->]; reflexivity.
Qed.

Lemma space_not_punct c : isspace c = true -> is_break_punct c = false.
Proof.
  intros Hs. destruct (is_break_punct c) eqn:Hp; [|done].
  apply punct_not_space in Hp. congruence.
Qed.

Section Rule.
Variable tag : str.

Lemma rule_cons_nonpunct c t :
  is_break_punct c = false ->
  breaks_by_rule tag (c :: t) = c :: breaks_by_rule tag t.
Proof. intros Hc. destruct t; [done|]. cbn [breaks_by_rule]. by rewrite Hc. Qed.

Lemma rule_cons_nonspace c d t :
  isspace d = false ->
  breaks_by_rule tag (c :: d :: t) = c :: breaks_by_rule tag (d :: t).
Proof. intros Hd. cbn [breaks_by_rule]. by rewrite Hd, andb_false_r. Qed.

Lemma rule_cons_break c d t :
  is_break_punct c = true -> isspace d = true ->
  breaks_by_rule tag (c :: d :: t) = c :: tag ++ breaks_by_rule tag (d :: t).
Proof. intros Hc Hd. cbn [breaks_by_rule]. by rewrite Hc, Hd. Qed.

Lemma take_drop_while P s : take_while P s ++ drop_while P s = s.
Proof. induction s as [|c s IH]; [done|]. simpl. destruct (P c); [|done]. simpl. by rewrite IH. Qed.

Lemma take_while_all P s : Forall (fun c => P c = true) (take_while P s).
Proof.
  induction s as [|c s IH]; [constructor|]. simpl.
  destruct (P c) eqn:E; [by constructor|constructor].
Qed.

Lemma drop_while_head P s :
  match drop_while P s with
  | [] => True
  | d :: _ => P d = false
  end.
Proof. induction s as [|c s IH]; [done|]. simpl. by destruct (P c) eqn:E. Qed.

Lemma drop_while_length P s : (length (drop_while P s) <= length s)%nat.
Proof. induction s as [|c s IH]; [done|]. simpl. destruct (P c); simpl; lia. Qed.

Lemma rule_spaces spaces rest :
  Forall (fun c => isspace c = true) spaces ->
  breaks_by_rule tag (spaces ++ rest) = spaces ++ breaks_by_rule tag rest.
Proof.
  induction 1 as [|c spaces Hc _ IH]; [done|].
  change ((c :: spaces) ++ rest) with (c :: (spaces ++ rest)).
  rewrite rule_cons_nonpunct by by apply space_not_punct.
  by rewrite IH.
Qed.

Lemma rule_marks marks d t :
  Forall (fun c => is_break_punct c = true) marks -> marks <> [] ->
  isspace d = true ->
  breaks_by_rule tag (marks ++ d :: t)
  = marks ++ tag ++ breaks_by_rule tag (d :: t).
Proof.
  intros Hall Hne Hd. induction Hall as [|c marks Hc Hall IH]; [done|].
  destruct marks as [|c2 marks].
  - simpl app at 1 2. by apply rule_cons_break.
  - apply Forall_cons in Hall as Hall'. destruct Hall' as [Hc2 _].
    change ((c :: c2 :: marks) ++ d :: t) with (c :: c2 :: (marks ++ d :: t)).
    rewrite rule_cons_nonspace by by apply punct_not_space.
    change (c2 :: (marks ++ d :: t)) with ((c2 :: marks) ++ d :: t).
    rewrite IH by done. done.
Qed.

Lemma sub_breaks_rule fuel text :
  (length text <= fuel)%nat -> sub_breaks fuel tag text = breaks_by_rule tag text.
Proof.
  revert text. induction fuel as [|fuel IH]; intros text Hlen.
  - destruct text; [done|simpl in Hlen; lia].
  - destruct text as [|c text']; [done|].
    cbn [sub_breaks].
    pose proof (take_drop_while is_break_punct (c :: text')) as Hsplit.
    pose proof (take_while_all is_break_punct (c :: text')) as Hmarks.
    pose proof (drop_while_length is_break_punct (c :: text')) as Hlen1.
    set (marks := take_while is_break_punct (c :: text')) in *.
    set (after := drop_while is_break_punct (c :: text')) in *.
    pose proof (take_drop_while isspace after) as Hsplit2.
    pose proof (take_while_all isspace after) as Hspaces.
    pose proof (drop_while_length isspace after) as Hlen2.
    pose proof (drop_while_head isspace after) as Hhead.
    set (spaces := take_while isspace after) in *.
    set (rest := drop_while isspace after) in *.
    simpl in Hlen.
    destruct (nonempty marks && nonempty spaces) eqn:Hmatch.
    + apply andb_true_iff in Hmatch as [Hm Hs].
      destruct marks as [|m marks']; [done|].
      destruct spaces as [|s spaces']; [done|].
      rewrite <- Hsplit, <- Hsplit2.
      change ((s :: spaces') ++ rest) with (s :: (spaces' ++ rest)).
      rewrite rule_marks; [|done|done|by apply Forall_cons in Hspaces as [? _]].
      change (s :: (spaces' ++ rest)) with ((s :: spaces') ++ rest).
      rewrite rule_spaces by done.
      rewrite IH; [done|].
      assert (length after <= length text')%nat.
      { apply (f_equal length) in Hsplit. rewrite length_app in Hsplit.
        simpl in Hsplit. lia. }
      lia.
    + rewrite IH by lia.
      destruct (is_break_punct c) eqn:Hc; [|by rewrite rule_cons_nonpunct].
      destruct text' as [|d t]; [done|].
      symmetry. apply rule_cons_nonspace.
      destruct (is_break_punct d) eqn:Hd; [by apply punct_not_space|].
      subst spaces rest after marks.
      cbn [take_while drop_while] in Hmatch. rewrite Hc, Hd in Hmatch.
      cbn [take_while nonempty andb] in Hmatch.
      by destruct (isspace d).
Qed.

End Rule.

(** X17. The regular-expression substitution of [_inject_breaks] comes to a
    rule on neighbouring characters: the break tag is put after a
    punctuation mark of [.!?:…] exactly when the next character is white
    space, and nothing else of the text changes. *)
Theorem inject_breaks_by_rule (text : str) (pause_value : Z) :
  _inject_breaks text pause_value = breaks_by_rule (break_tag pause_value) text.
Proof. unfold _inject_breaks. by apply sub_breaks_rule. Qed.

(** X18. The flag [use_silence] changes the document that [_build_ssml]
    builds exactly when [pause_ms] is positive: with [pause_ms] at most
    zero the documents built with [use_silence=True] and with
    [use_silence=False] are the same, character for character, so the
    first two tiers of the cascade send the same request; with a positive
    [pause_ms] they differ. *)
Theorem silence_tier_same_without_pause
  (voice_id : str) (rate pause_ms : Z) (text rate_str : str)
  (raw_content : bool) :
  _build_ssml voice_id rate pause_ms text rate_str true raw_content
  = _build_ssml voice_id rate pause_ms text rate_str false raw_content
  <-> pause_ms <= 0.
Proof.
  unfold _build_ssml. split.
  - intros H. destruct (Z.gtb_spec (Z.max 0 pause_ms) 0) as [Hpos|]; [|lia].
    cbn [andb] in H. repeat apply app_inv_head in H.
    apply (f_equal length) in H. rewrite !length_app in H.
    cbn [length] in H.
    assert (0 < length (Q "    <mstts:silence type='Sentenceboundary-exact' value='"))%nat
      by (vm_compute; lia).
    lia.
  - intros Hp. replace (Z.max 0 pause_ms) with 0 by lia. reflexivity.
Qed.

End MarkupFacts.

(* ===================================================================== *)
(** * The batch loop: properties                                      *)
(* ===================================================================== *)

Module BatchFacts.
Import Py PyFacts SsmlClient TtsWorker Batch WorkerFacts.

Section Protocol.
Variable single_file : str -> bytes -> World -> option (World * result unit).
Variable _temp_file_name : World -> World * result bytes.
Variable path_name : bytes -> bytes.

Local Abbreviation loop := (batch_loop single_file _temp_file_name path_name).

Lemma batch_loop_protocol i total tasks last0 w w' sigs lastp r :
  loop i total tasks last0 w = Some (w', sigs, lastp, r) ->
  Forall (fun sg => is_terminal sg = false) sigs
  /\ (r = None ->
      length (finished_files sigs) = length tasks
      /\ lastp = default last0 (last (finished_files sigs)))
  /\ (r <> None -> (length (finished_files sigs) < length tasks)%nat)
  /\ (forall k p text q,
        finished_files sigs !! k = Some p ->
        tasks !! k = Some (text, Some q) -> p = q).
Proof.
  revert i last0 w w' sigs lastp r.
  induction tasks as [|[text output_path] rest IH];
    intros i last0 w w' sigs lastp r E.
  - simpl in E. injection E as <- <- <- <-.
    split; [constructor|]. split; [done|]. split; [done|].
    intros k p text q Hk. by destruct k.
  - cbn [batch_loop] in E.
    destruct (match output_path with
              | Some p => (w, inr p)
              | None => _temp_file_name w
              end) as [w1 [e|dest]] eqn:Ed.
    { injection E as <- <- <- <-.
      split; [constructor|]. split; [done|]. split; [simpl; lia|].
      intros k p text' q Hk. by destruct k. }
    destruct (single_file text dest w1) as [[w2 [e|[]]]|] eqn:Es; [| |done].
    { injection E as <- <- <- <-.
      split; [by repeat constructor|]. split; [done|]. split; [simpl; lia|].
      intros k p text' q Hk. by destruct k. }
    destruct (loop (i + 1) total rest dest w2) as [[[[w3 sigs'] lastp'] r']|] eqn:El;
      [|done].
    injection E as <- <- <- <-.
    apply IH in El as (Hnt & Hdone & Herr & Hdest).
    split; [by repeat constructor|].
    change (finished_files (_ :: FileFinished dest :: sigs'))
      with (dest :: finished_files sigs').
    split; [|split].
    + intros Hr. destruct (Hdone Hr) as [Hlen ->]. split; [simpl; lia|].
      by destruct (finished_files sigs') as [|x xs] using rev_ind;
        [|rewrite app_comm_cons, !last_snoc].
    + intros Hr. specialize (Herr Hr). simpl. lia.
    + intros [|k] p text' q Hk Ht.
      * simpl in Hk, Ht. injection Hk as <-. injection Ht as _ ->.
        by injection Ed as _ ->.
      * simpl in Hk, Ht. eauto.
Qed.

(** X19. The signals of a batch that comes to an end.  When no
    exception leaves [_process_batch]: exactly one of [finished] and
    [error], as the last signal; [file_finished] once for each task
    completed, in the order of the tasks and with the output path of the
    task where one was given; [finished] only after every task was
    completed, and then with the path of the last task (the empty string
    for a batch without tasks); [error] only with a task left uncompleted
    and for an exception of class [Exception].  When an exception leaves
    [_process_batch], it is not of class [Exception] (a cancellation), a
    task was left uncompleted, and neither [finished] nor [error] was
    emitted. *)
Theorem batch_signal_protocol tasks w w' sigs passed :
  _process_batch single_file _temp_file_name path_name tasks w
  = Some (w', sigs, passed) ->
  match passed with
  | None =>
      exists body final,
        sigs = body ++ [final]
        /\ Forall (fun sg => is_terminal sg = false) body
        /\ (forall k p text q,
              finished_files body !! k = Some p ->
              tasks !! k = Some (text, Some q) -> p = q)
        /\ match final with
           | Finished p =>
               length (finished_files body) = length tasks
               /\ p = default [] (last (finished_files body))
           | Error e =>
               (length (finished_files body) < length tasks)%nat
               /\ is_exception e = true
           | _ => False
           end
  | Some e =>
      is_exception e = false
      /\ Forall (fun sg => is_terminal sg = false) sigs
      /\ (length (finished_files sigs) < length tasks)%nat
      /\ (forall k p text q,
            finished_files sigs !! k = Some p ->
            tasks !! k = Some (text, Some q) -> p = q)
  end.
Proof.
  unfold _process_batch. intros E.
  destruct (loop 0 (len tasks) tasks [] w) as [[[[w1 body] lastp] r]|] eqn:El;
    [|done].
  apply batch_loop_protocol in El as (Hnt & Hdone & Herr & Hdest).
  destruct r as [e|].
  - destruct (is_exception e) eqn:He; injection E as <- <- <-.
    + exists body, (Error e). repeat split; try done. by apply Herr.
    + repeat split; try done. by apply Herr.
  - injection E as <- <- <-.
    exists body, (Finished lastp). repeat split; try done; by apply Hdone.
Qed.

End Protocol.

Lemma batch_signal_protocol_witness :
  exists body final,
    [BatchProgress 1 2 (B "a.mp3"); FileFinished (B "a.mp3");
     BatchProgress 2 2 (B "b.mp3"); FileFinished (B "b.mp3");
     Finished (B "b.mp3")] = body ++ [final]
    /\ Forall (fun sg => is_terminal sg = false) body
    /\ (forall k p text q,
          finished_files body !! k = Some p ->
          [(S_ "Hello.", Some (B "a.mp3")); (S_ "Bye.", Some (B "b.mp3"))] !! k
          = Some (text, Some q) -> p = q)
    /\ match final with
       | Finished p =>
           length (finished_files body)
           = length [(S_ "Hello.", Some (B "a.mp3")); (S_ "Bye.", Some (B "b.mp3"))]
           /\ p = default [] (last (finished_files body))
       | Error e =>
           (length (finished_files body)
            < length [(S_ "Hello.", Some (B "a.mp3"));
                      (S_ "Bye.", Some (B "b.mp3"))])%nat
           /\ is_exception e = true
       | _ => False
       end.
Proof.
  apply (batch_signal_protocol sample_single_file sample_temp_file_name
           (fun p => p)
           [(S_ "Hello.", Some (B "a.mp3")); (S_ "Bye.", Some (B "b.mp3"))]
           sample_world
           (mkWorld (<[B "b.mp3" := B "mp3"]> (<[B "a.mp3" := B "mp3"]> ∅))
                    (mkNet (connection_at sample_net) (refresh_at sample_net)
                           2 0))
           _ None).
  vm_compute. reflexivity.
Defined.

(** X20. A task whose text is blank after the pre-processing is reported
    like a generated file: the batch emits [batch_progress],
    [file_finished] and [finished] with the path of the task, and leaves
    the files as the pre-processing left them, so a path that did not
    exist before does not exist when it is announced. *)
Theorem blank_text_reported_finished
  (voice_id rate_str : str) (use_stress gemini_enabled thinking_mode : bool)
  (session_output_format : bytes)
  (_build_ssml : str -> str -> bool -> bool -> bytes)
  (communicate_save : str -> bytes -> World -> World * option exn)
  (prepare_text_for_tts : str -> bool -> bool -> World -> World * result str)
  (_temp_file_name : World -> World * result bytes)
  (with_suffix_txt : bytes -> bytes)
  (manifest : list bytes -> bytes)
  (ffmpeg : list bytes -> bytes -> bytes -> World -> World * result unit)
  (path_name : bytes -> bytes)
  (text : str) (output_path : bytes) (w w0 : World) (prepared : str) :
  prepare_text_for_tts text gemini_enabled thinking_mode w = (w0, inr prepared) ->
  prepared = [] \/ strip prepared = [] ->
  _process_batch
    (_generate_single_file voice_id rate_str use_stress gemini_enabled
       thinking_mode session_output_format _build_ssml communicate_save
       prepare_text_for_tts _temp_file_name with_suffix_txt manifest ffmpeg)
    _temp_file_name path_name [(text, Some output_path)] w
  = Some (w0, [BatchProgress 1 1 (path_name output_path);
               FileFinished output_path; Finished output_path], None).
Proof.
  intros Hprep Hblank.
  unfold _process_batch. cbn [batch_loop].
  unfold _generate_single_file. rewrite Hprep.
  by rewrite decide_True by done.
Qed.

Lemma blank_text_reported_finished_witness :
  _process_batch sample_single_file sample_temp_file_name (fun p => p)
    [(S_ "   ", Some (B "out.mp3"))] sample_world
  = Some (sample_world, [BatchProgress 1 1 (B "out.mp3");
                         FileFinished (B "out.mp3"); Finished (B "out.mp3")],
          None).
Proof.
  apply (blank_text_reported_finished (S_ "ru-RU-DmitryNeural") (S_ "+0%") false
           true false (B "audio-24khz-48kbitrate-mono-mp3") sample_build_ssml
           sample_communicate_save sample_prepare sample_temp_file_name
           sample_with_suffix_txt sample_manifest sample_ffmpeg (fun p => p)
           (S_ "   ") (B "out.mp3") sample_world sample_world (S_ "   ")).
  - reflexivity.
  - right. reflexivity.
Defined.

End BatchFacts.

(* ===================================================================== *)
(** * What a failed generation leaves behind                          *)
(* ===================================================================== *)

Module LeftoverFacts.
Import Py PyFacts SsmlClient SessionFacts TtsWorker OrchestratorFacts WorkerFacts
  CleanupFacts.

Section Worker.
Variable voice_id : str.
Variable rate_str : str.
Variable use_stress : bool.
Variable gemini_enabled thinking_mode : bool.
Variable session_output_format : bytes.
Variable _build_ssml : str -> str -> bool -> bool -> bytes.
Variable communicate_save : str -> bytes -> World -> World * option exn.
Variable prepare_text_for_tts : str -> bool -> bool -> World -> World * result str.
Variable _temp_file_name : World -> World * result bytes.
Variable with_suffix_txt : bytes -> bytes.
Variable manifest : list bytes -> bytes.
Variable ffmpeg : list bytes -> bytes -> bytes -> World -> World * result unit.

Local Abbreviation synth :=
  (worker_synth voice_id use_stress session_output_format _build_ssml
     communicate_save).
Local Abbreviation generate :=
  (worker_generate_audio voice_id rate_str use_stress session_output_format
     _build_ssml communicate_save).
Local Abbreviation chunks_loop :=
  (generate_chunks voice_id rate_str use_stress session_output_format
     _build_ssml communicate_save _temp_file_name).
Local Abbreviation single_file :=
  (_generate_single_file voice_id rate_str use_stress gemini_enabled
     thinking_mode session_output_format _build_ssml communicate_save
     prepare_text_for_tts _temp_file_name with_suffix_txt manifest ffmpeg).

(** The plain-text [save] does not remove a file that is there. *)
Hypothesis communicate_save_keeps :
  forall input p w w' r,
    communicate_save input p w = (w', r) ->
    is_Some (files w !! p) -> is_Some (files w' !! p).

Lemma ssml_attempt_creates use_silence destination text rate w :
  is_Some (files (ssml_attempt use_stress session_output_format _build_ssml
                    use_silence destination text rate w).1 !! destination).
Proof.
  unfold ssml_attempt, save.
  destruct (stream _ (net w)) as [[[self' n'] ys] [e|]]; simpl;
    by rewrite lookup_insert_eq.
Qed.

Lemma attempt_creates destination text rate w :
  is_Some (files (_attempt_generate_audio synth destination text rate w).1.1
           !! destination).
Proof.
  unfold _attempt_generate_audio. cbn [worker_synth].
  pose proof (ssml_attempt_creates true destination text rate w) as H1.
  destruct (ssml_attempt _ _ _ true destination text rate w) as [w1 [e1|s1]];
    [|done].
  destruct (is_exception e1); cbn [negb]; [|done].
  pose proof (ssml_attempt_creates false destination text rate w1) as H2.
  destruct (ssml_attempt _ _ _ false destination text rate w1) as [w2 [e2|s2]];
    [|done].
  destruct (is_exception e2); cbn [negb]; [|done].
  unfold plain_attempt.
  destruct (communicate_save _ destination w2) as [w3 [e3|]] eqn:E3; simpl;
    by eapply communicate_save_keeps.
Qed.

Lemma generate_creates destination text w :
  is_Some (files (generate destination text w).1.1 !! destination).
Proof.
  unfold worker_generate_audio. rewrite generate_audio_rounds.
  pose proof (attempt_creates destination text rate_str w) as H1.
  destruct (_attempt_generate_audio synth destination text rate_str w)
    as [[w1 tr1] [e1|s1]]; [|done].
  destruct (is_exception e1); cbn [negb]; [|done].
  pose proof (attempt_creates destination text rate_str (worker_sleep 1 w1)) as H2.
  destruct (_attempt_generate_audio synth destination text rate_str
              (worker_sleep 1 w1)) as [[w2 tr2] [e2|s2]]; [|done].
  destruct (is_exception e2); cbn [negb]; [|done].
  pose proof (attempt_creates destination text rate_str (worker_sleep 2 w2)) as H3.
  by destruct (_attempt_generate_audio synth destination text rate_str
                 (worker_sleep 2 w2)) as [[w3 tr3] [e3|s3]].
Qed.


End Worker.

Lemma sample_communicate_save_keeps input p w w' r :
  sample_communicate_save input p w = (w', r) ->
  is_Some (files w !! p) -> is_Some (files w' !! p).
Proof. intros [= <- _] _. simpl. by rewrite lookup_insert_eq. Qed.

Lemma sample_communicate_save_timeout_keeps input p w w' r :
  sample_communicate_save_timeout input p w = (w', r) ->
  is_Some (files w !! p) -> is_Some (files w' !! p).
Proof. intros [= <- _] _. simpl. by rewrite lookup_insert_eq. Qed.

(** X21. [_generate_audio] leaves a file at its destination in every case,
    also when it raises after the last retry: each SSML attempt opens the
    destination for writing before it asks the provider, and nothing
    removes the file afterwards (given that the plain-text [save] of the
    third tier does not remove a file that is there). *)
Theorem generate_audio_leaves_file
  (voice_id rate_str : str) (use_stress : bool) (session_output_format : bytes)
  (_build_ssml : str -> str -> bool -> bool -> bytes)
  (communicate_save : str -> bytes -> World -> World * option exn)
  (destination : bytes) (text : str) (w : World) :
  (forall input p w w' r,
      communicate_save input p w = (w', r) ->
      is_Some (files w !! p) -> is_Some (files w' !! p)) ->
  is_Some (files (worker_generate_audio voice_id rate_str use_stress
                    session_output_format _build_ssml communicate_save
                    destination text w).1.1 !! destination).
Proof. intros Hkeeps. by apply generate_creates. Qed.

Lemma generate_audio_leaves_file_witness :
  is_Some (files (worker_generate_audio (S_ "ru-RU-DmitryNeural") (S_ "+0%")
                    false (B "audio-24khz-48kbitrate-mono-mp3")
                    sample_build_ssml sample_communicate_save_timeout
                    (B "out.mp3") (S_ "Hello.")
                    (mkWorld ∅ (net_rejecting 500))).1.1 !! B "out.mp3").
Proof.
  apply (generate_audio_leaves_file (S_ "ru-RU-DmitryNeural") (S_ "+0%")
           false (B "audio-24khz-48kbitrate-mono-mp3")
           sample_build_ssml sample_communicate_save_timeout
           (B "out.mp3") (S_ "Hello.") (mkWorld ∅ (net_rejecting 500))).
  exact sample_communicate_save_timeout_keeps.
Defined.



End LeftoverFacts.
